(** * Deye Modbus proxy: the decode-and-refresh engine of [proxy.py]

    A shallow embedding of the register decoder ([combine_words],
    [apply_scale_offset]), the range planner ([merge_ranges]), the device
    reader ([read_plan]), the poll cycle with its circuit breaker
    ([refresh_cache]) and the snapshot query ([handle_get]), followed by
    the properties of the design document that concern them.

    Conventions of the embedding.
    - Python [int] is [Z]; [&], [|], [<<] are [Z.land], [Z.lor],
      [Z.shiftl] (two's complement on negative numbers, as in Python).
    - Python [float] is the binary64 type [float] of the kernel; [*], [+]
      and [>] on floats are the IEEE operations, as in CPython.
    - Python [str] is [string]; [==] on strings is [String.eqb].
    - A [dict] whose iteration order is observable (the cache, the JSON
      objects of the query) is an insertion-ordered association list
      ([odict]); the address-to-word dictionaries, which are only looked
      up, are [gmap]s.
    - Exceptions are values of [exn]; a computation that may raise
      returns [exn + A].
    - The device transport and the event-loop clock are external: they
      are operations on an abstract world [W], passed explicitly. *)

From Stdlib Require Import ZArith Floats Lia Sorting.Sorted Permutation.
From stdpp Require Import gmap strings list fin_maps.

Local Open Scope Z_scope.

(** ** Data structures *)

(** [class RegSpec] *)
Record RegSpec := mkRegSpec {
  id : string;
  address : Z;
  count : Z;
  func : string;            (* "holding" or "input" *)
  dtype : string;           (* uint16, int16, uint32, int32 *)
  byte_order : string;      (* AB, ABCD, CDAB, DCBA *)
  multiply : float;
  offset : float;
  measurement : string;
  field_name : string;
  tags : gmap string string
}.

(** Last address a spec occupies: [address + count - 1]. *)
Definition spec_end (s : RegSpec) : Z := address s + count s - 1.

(** ** Decoder *)

(** [def combine_words(words, dtype, byte_order)] *)
Definition combine_words (words : list Z) (dtype byte_order : string) : Z :=
  match words with
  | [w] =>
      let val := Z.land w 0xFFFF in
      if String.eqb dtype "int16" then
        if negb (Z.land val 0x8000 =? 0) then val - 0x10000 else val
      else val
  | [x0; x1] =>
      let w0 := Z.land x0 0xFFFF in
      let w1 := Z.land x1 0xFFFF in
      let '(hi, lo) :=
        if String.eqb byte_order "CDAB" then (w1, w0) else (w0, w1) in
      let val := Z.lor (Z.shiftl hi 16) lo in
      if String.eqb dtype "int32" then
        if negb (Z.land val 0x80000000 =? 0) then val - 0x100000000 else val
      else val
  | _ =>
      fold_left (fun acc w => Z.lor (Z.shiftl acc 16) (Z.land w 0xFFFF)) words 0
  end.

(** ** Range planner *)

(** [sorted(specs, key=lambda s: s.address)]: Python's sort is stable, so
    its result is the one of any stable sort; here, insertion from the
    right, each element placed before the first element whose address is
    not smaller. *)
Fixpoint insert_by_address (s : RegSpec) (l : list RegSpec) : list RegSpec :=
  match l with
  | [] => [s]
  | x :: l' =>
      if address s <=? address x then s :: x :: l'
      else x :: insert_by_address s l'
  end.

Definition sorted_by_address (specs : list RegSpec) : list RegSpec :=
  foldr insert_by_address [] specs.

(** A plan is the tuple [(start, qty, group)] of the source. *)
Definition plan : Type := Z * Z * list RegSpec.

Definition plan_start (p : plan) : Z := p.1.1.
Definition plan_qty (p : plan) : Z := p.1.2.
Definition plan_group (p : plan) : list RegSpec := p.2.
Definition plan_end (p : plan) : Z := plan_start p + plan_qty p - 1.

Definition MAX_QTY : Z := 120.

(** The two nested [while] loops of [merge_ranges] walk [specs_sorted]
    once: [start], [end_] and [group] are the variables of the outer
    iteration in progress, [l] is [specs_sorted[i:]].  The inner loop
    either extends the group with [nxt] or breaks, in which case the
    group is appended to [out] and the outer loop starts the next group
    at [nxt]. *)
Fixpoint merge_walk (start end_ : Z) (group : list RegSpec)
    (l : list RegSpec) : list plan :=
  match l with
  | [] => [(start, end_ - start + 1, group)]
  | nxt :: l' =>
      let nxt_end := address nxt + count nxt - 1 in
      if (address nxt <=? end_ + 2) && (nxt_end - start + 1 <=? MAX_QTY) then
        merge_walk start (Z.max end_ nxt_end) (group ++ [nxt]) l'
      else
        (start, end_ - start + 1, group)
          :: merge_walk (address nxt) (address nxt + count nxt - 1) [nxt] l'
  end.

(** [def merge_ranges(specs)] *)
Definition merge_ranges (specs : list RegSpec) : list plan :=
  match sorted_by_address specs with
  | [] => []
  | s :: l => merge_walk (address s) (address s + count s - 1) [s] l
  end.

(** Address [a] is read by plan [p]: it lies in [start, start+qty-1]. *)
Definition plan_reads (p : plan) (a : Z) : Prop :=
  plan_start p <= a <= plan_end p.

(** Address [a] is occupied by spec [s]. *)
Definition spec_occupies (s : RegSpec) (a : Z) : Prop :=
  address s <= a <= spec_end s.

(** ** Exceptions *)

(** The exception classes that occur in a poll cycle: the five of the
    [except] clause of [refresh_cache], and [OverflowError], which the
    builtin [float] raises on an integer too large for a binary64. *)
Inductive exn :=
| V5FrameError | NoSocketAvailableError | TimeoutError | KeyError | OSError
| OverflowError.

(** [except (V5FrameError, NoSocketAvailableError, asyncio.TimeoutError,
    KeyError, OSError)] *)
Definition handled (e : exn) : bool :=
  match e with
  | V5FrameError | NoSocketAvailableError | TimeoutError | KeyError | OSError => true
  | OverflowError => false
  end.

(** ** Insertion-ordered dictionaries with string keys *)

(** A dictionary is the list of its items, in insertion order. *)
Abbreviation odict V := (list (string * V)).

Section odict.
Context {V : Type}.

(** [d.get(k)] *)
Fixpoint od_get (k : string) (d : odict V) : option V :=
  match d with
  | [] => None
  | (k', v) :: d' => if String.eqb k k' then Some v else od_get k d'
  end.

(** [d[k] = v]: a present key keeps its position, a new key goes last. *)
Fixpoint od_set (k : string) (v : V) (d : odict V) : odict V :=
  match d with
  | [] => [(k, v)]
  | (k', v') :: d' =>
      if String.eqb k k' then (k', v) :: d' else (k', v') :: od_set k v d'
  end.

(** [d.update(other)] *)
Definition od_update (d other : odict V) : odict V :=
  fold_left (fun acc kv => od_set kv.1 kv.2 acc) other d.

(** The representation invariant of a dictionary: keys are distinct. *)
Definition od_wf (d : odict V) : Prop := NoDup (map fst d).
End odict.

(** ** Scaling *)

(** [float(raw)] for an [int]: the nearest binary64 (ties to even), or
    [OverflowError] when that would be infinite. *)
Definition float_of_int (z : Z) : exn + float :=
  let f := SF2Prim (binary_normalize prec emax z 0 false) in
  if PrimFloat.is_infinity f then inl OverflowError else inr f.

(** [def apply_scale_offset(raw, multiply, offset)], called with an
    [int] for [raw] and floats for the other two, on which [float(.)]
    is the identity. *)
Definition apply_scale_offset (raw : Z) (multiply offset : float) : exn + float :=
  match float_of_int raw with
  | inl e => inl e
  | inr r => inr (PrimFloat.add (PrimFloat.mul r multiply) offset)
  end.

(** ** Application state *)

(** The handle stored in [STATE.sol]; what the device answers is part of
    the world, not of the handle. *)
Inductive PySolarmanV5Async := Client.

(** [class AppState]; [cache_lock] only orders concurrent tasks and has
    no counterpart in a sequential model. *)
Record AppState := mkAppState {
  regs : list RegSpec;
  cache : odict (odict float);          (* measurement -> fields *)
  cache_ts : float;
  sol : option PySolarmanV5Async;
  breaker_failures : Z;
  breaker_open_until : float
}.

Definition set_sol (st : AppState) (c : option PySolarmanV5Async) : AppState :=
  mkAppState (regs st) (cache st) (cache_ts st) c
             (breaker_failures st) (breaker_open_until st).

Definition set_breaker_failures (st : AppState) (n : Z) : AppState :=
  mkAppState (regs st) (cache st) (cache_ts st) (sol st) n (breaker_open_until st).

Definition set_breaker_open_until (st : AppState) (t : float) : AppState :=
  mkAppState (regs st) (cache st) (cache_ts st) (sol st) (breaker_failures st) t.

(** The three assignments made under [cache_lock] after a good cycle. *)
Definition commit (st : AppState) (new_cache : odict (odict float)) (ts : float)
  : AppState :=
  mkAppState (regs st) new_cache ts (sol st) 0 (breaker_open_until st).

(** ** Environment *)

(** The settings read from the process environment that the cycle uses. *)
Record Config := mkConfig {
  ROUND_DECIMALS : Z;
  CB_FAIL_LIMIT : Z;
  CB_OPEN_SECONDS : float
}.

(** The external collaborators, as transitions of a world [W]: the clock
    of the event loop and the three calls made on the device client.
    A read is the call wrapped in [asyncio.wait_for]: it returns the
    register words or raises, [TimeoutError] included. *)
Record Transport (W : Type) := mkTransport {
  loop_time : W -> float * W;
  connect : W -> option exn * W;
  read_holding_registers : Z -> Z -> W -> (exn + list Z) * W;
  read_input_registers : Z -> Z -> W -> (exn + list Z) * W
}.
Arguments loop_time {W}.
Arguments connect {W}.
Arguments read_holding_registers {W}.
Arguments read_input_registers {W}.

(** The calls a cycle makes on the device client, in order. *)
Inductive call :=
| Connect
| ReadHolding (start qty : Z)
| ReadInput (start qty : Z).

(** How a tick ends: the breaker was open; the snapshot was committed;
    the [except] clause ran for [e]; or [e] left [refresh_cache]
    uncaught (the worker loop logs it). *)
Inductive outcome :=
| Skipped
| Committed
| Failed (e : exn)
| Escaped (e : exn).

(** ** Device reader and poll cycle *)

Section Poller.
Context {W : Type}.
Variable tr : Transport W.
Variable cfg : Config.
(** The builtin [round(val, ndigits)] on floats. *)
Variable py_round : float -> Z -> exn + float.

(** [for idx, val in enumerate(regs): addr2word[start + idx] = int(val) & 0xFFFF] *)
Fixpoint store_words (start : Z) (words : list Z) (addr2word : gmap Z Z)
  : gmap Z Z :=
  match words with
  | [] => addr2word
  | val :: rest =>
      store_words (start + 1) rest (<[start := Z.land val 0xFFFF]> addr2word)
  end.

(** The loop of [read_plan], from the dictionary built so far. *)
Fixpoint read_plan_from (plan_ : list plan) (func_ : string)
    (addr2word : gmap Z Z) (w : W) : (exn + gmap Z Z) * W * list call :=
  match plan_ with
  | [] => (inr addr2word, w, [])
  | (start, qty, _) :: rest =>
      let '(r, w1, c) :=
        if String.eqb func_ "holding"
        then (read_holding_registers tr start qty w, ReadHolding start qty)
        else (read_input_registers tr start qty w, ReadInput start qty) in
      match r with
      | inl e => (inl e, w1, [c])
      | inr words =>
          let '(r', w2, cs) :=
            read_plan_from rest func_ (store_words start words addr2word) w1 in
          (r', w2, c :: cs)
      end
  end.

(** [async def read_plan(client, plan, func, req_timeout)] *)
Definition read_plan (plan_ : list plan) (func_ : string) (w : W)
  : (exn + gmap Z Z) * W * list call :=
  read_plan_from plan_ func_ ∅ w.

(** [for func, plan in plans: all_words[func] = await read_plan(...)] *)
Fixpoint read_all (plans : list (string * list plan))
    (all_words : gmap string (gmap Z Z)) (w : W)
  : (exn + gmap string (gmap Z Z)) * W * list call :=
  match plans with
  | [] => (inr all_words, w, [])
  | (func_, plan_) :: rest =>
      let '(r, w1, cs1) := read_plan plan_ func_ w in
      match r with
      | inl e => (inl e, w1, cs1)
      | inr addr2word =>
          let '(r', w2, cs2) :=
            read_all rest (<[func_ := addr2word]> all_words) w1 in
          (r', w2, cs1 ++ cs2)
      end
  end.

(** [spec.field_name or spec.id] *)
Definition out_key (spec : RegSpec) : string :=
  if String.eqb (field_name spec) "" then id spec else field_name spec.

(** The value computed for one spec in the decoding loop: the lookup
    of its words ([KeyError] when the bank or an address is missing),
    [combine_words], [apply_scale_offset] and [round]. *)
Definition decode_spec (all_words : gmap string (gmap Z Z)) (spec : RegSpec)
  : exn + float :=
  match all_words !! (if String.eqb (func spec) "holding"
                      then "holding" else "input") with
  | None => inl KeyError
  | Some source =>
      match mapM (fun off => source !! (address spec + off))
                 (seqZ 0 (count spec)) with
      | None => inl KeyError
      | Some words =>
          let raw := combine_words words (dtype spec) (byte_order spec) in
          match apply_scale_offset raw (multiply spec) (offset spec) with
          | inl e => inl e
          | inr val => py_round val (ROUND_DECIMALS cfg)
          end
      end
  end.

(** [m = new_cache.setdefault(measurement, {}); m[key] = val] *)
Definition cache_put (meas key : string) (val : float)
    (new_cache : odict (odict float)) : odict (odict float) :=
  let m := default [] (od_get meas new_cache) in
  od_set meas (od_set key val m) new_cache.

(** [for spec in STATE.regs: ...], from the [new_cache] built so far. *)
Fixpoint build_cache (all_words : gmap string (gmap Z Z))
    (specs : list RegSpec) (new_cache : odict (odict float))
  : exn + odict (odict float) :=
  match specs with
  | [] => inr new_cache
  | spec :: rest =>
      match decode_spec all_words spec with
      | inl e => inl e
      | inr val =>
          build_cache all_words rest
            (cache_put (measurement spec) (out_key spec) val new_cache)
      end
  end.

(** The plans computed before the [try]. *)
Definition make_plans (st : AppState) : list (string * list plan) :=
  let holding := List.filter (fun s => String.eqb (func s) "holding") (regs st) in
  let inputr := List.filter (fun s => String.eqb (func s) "input") (regs st) in
  (match holding with [] => [] | _ => [("holding", merge_ranges holding)] end)
  ++ (match inputr with [] => [] | _ => [("input", merge_ranges inputr)] end).

(** [if STATE.sol is None: STATE.sol = PySolarmanV5Async(...);
    await STATE.sol.connect()].  Building the client object does no I/O
    and is taken to succeed; the handle is stored before the connection
    is attempted. *)
Definition ensure_client (st : AppState) (w : W)
  : option exn * AppState * W * list call :=
  match sol st with
  | Some _ => (None, st, w, [])
  | None =>
      let '(r, w1) := connect tr w in
      (r, set_sol st (Some Client), w1, [Connect])
  end.

(** The [try] block up to the point where [new_cache] is complete. *)
Definition try_block (st : AppState) (w : W)
  : (exn + odict (odict float)) * AppState * W * list call :=
  let '(c, st1, w1, cs1) := ensure_client st w in
  match c with
  | Some e => (inl e, st1, w1, cs1)
  | None =>
      let '(r, w2, cs2) := read_all (make_plans st) ∅ w1 in
      match r with
      | inl e => (inl e, st1, w2, cs1 ++ cs2)
      | inr all_words =>
          (build_cache all_words (regs st) [], st1, w2, cs1 ++ cs2)
      end
  end.

(** The [except] clause. *)
Definition record_failure (st : AppState) (now_loop : float) : AppState :=
  let st1 := set_breaker_failures st (breaker_failures st + 1) in
  if CB_FAIL_LIMIT cfg <=? breaker_failures st1
  then set_breaker_open_until st1 (PrimFloat.add now_loop (CB_OPEN_SECONDS cfg))
  else st1.

(** [async def refresh_cache()] *)
Definition refresh_cache (st : AppState) (w : W)
  : outcome * AppState * W * list call :=
  let '(now_loop, w0) := loop_time tr w in
  if PrimFloat.ltb now_loop (breaker_open_until st) then (Skipped, st, w0, [])
  else
    let '(r, st1, w1, cs) := try_block st w0 in
    match r with
    | inr new_cache =>
        let '(ts, w2) := loop_time tr w1 in
        (Committed, commit st1 new_cache ts, w2, cs)
    | inl e =>
        if handled e then (Failed e, record_failure st1 now_loop, w1, cs)
        else (Escaped e, st1, w1, cs)
    end.
End Poller.

(** ** Query handler *)

(** The values of the JSON objects of the response: the measurement name
    or a decoded field. *)
Inductive json :=
| JStr (s : string)
| JNum (f : float).

(** [obj = {"name": meas}; obj.update(fields)] *)
Definition measurement_object (meas : string) (fields : odict float) : odict json :=
  od_update [("name", JStr meas)] (map (fun kv => (kv.1, JNum kv.2)) fields).

(** [async def handle_get(request)]: the payload passed to
    [web.json_response]. *)
Definition handle_get (st : AppState) : list (odict json) :=
  map (fun mf => measurement_object mf.1 mf.2) (cache st).

(** ** Health query *)

(** The object [handle_health] returns, by its keys. *)
Module Health.
Record info := mk {
  cache_age_s : option float;
  cache_ts : float;
  breaker_failures : Z;
  breaker_open_until : float;
  regs_loaded : Z;
  round_decimals : Z
}.
End Health.

(** [async def handle_health(request)]: the object passed to
    [web.json_response].  A float is true unless it is zero, so the
    clock is read, and an age given, only for a non-zero [cache_ts]. *)
Definition handle_health {W} (tr : Transport W) (cfg : Config)
    (st : AppState) (w : W) : Health.info * W :=
  let '(age, w') :=
    if PrimFloat.eqb (cache_ts st) 0%float then (None, w)
    else let '(now, w1) := loop_time tr w in
         (Some (PrimFloat.sub now (cache_ts st)), w1) in
  (Health.mk age (cache_ts st) (breaker_failures st) (breaker_open_until st)
             (Z.of_nat (length (regs st))) (ROUND_DECIMALS cfg), w').

(** ** Background worker *)

Section Worker.
Context {W : Type}.
Variable tr : Transport W.
Variable cfg : Config.
Variable py_round : float -> Z -> exn + float.
(** [await asyncio.sleep(POLL_INTERVAL_S)], as a transition of the world. *)
Variable sleep : W -> W.

(** The first [n] rounds of the [while True] loop of
    [background_worker]: a tick, whose exception, if one leaves
    [refresh_cache], is logged and dropped, then the sleep.  The result
    carries, for each round, how the tick ended and the calls it made. *)
Fixpoint worker_loop (n : nat) (st : AppState) (w : W)
  : AppState * W * list (outcome * list call) :=
  match n with
  | O => (st, w, [])
  | S n' =>
      let '(out, st1, w1, cs) := refresh_cache tr cfg py_round st w in
      let '(st2, w2, log) := worker_loop n' st1 (sleep w1) in
      (st2, w2, (out, cs) :: log)
  end.

(** The start of [background_worker], from the register list that
    [parse_yaml] returned: the list is stored, a client is built and
    stored, and a connection is attempted, whose failure is logged and
    dropped. *)
Definition worker_start (parsed : list RegSpec) (st : AppState) (w : W)
  : AppState * W * list call :=
  let st1 := mkAppState parsed (cache st) (cache_ts st) (Some Client)
                        (breaker_failures st) (breaker_open_until st) in
  let '(_, w1) := connect tr w in
  (st1, w1, [Connect]).

(** [async def background_worker(app)], up to [n] rounds of its loop:
    the calls of the start, and the log of the rounds. *)
Definition background_worker (parsed : list RegSpec) (n : nat)
    (st : AppState) (w : W)
  : AppState * W * list call * list (outcome * list call) :=
  let '(st1, w1, cs) := worker_start parsed st w in
  let '(st2, w2, log) := worker_loop n st1 w1 in
  (st2, w2, cs, log).
End Worker.

(** ** Vocabulary of the properties *)

(** The high and the low word [combine_words] picks from two words. *)
Definition high_word (w0 w1 : Z) (byte_order : string) : Z :=
  if String.eqb byte_order "CDAB" then Z.land w1 0xFFFF else Z.land w0 0xFFFF.
Definition low_word (w0 w1 : Z) (byte_order : string) : Z :=
  if String.eqb byte_order "CDAB" then Z.land w0 0xFFFF else Z.land w1 0xFFFF.

(** The fold of the fallback, from an accumulator. *)
Definition fold_words (acc : Z) (words : list Z) : Z :=
  fold_left (fun acc w => Z.lor (Z.shiftl acc 16) (Z.land w 0xFFFF)) words acc.

(** Orders on specs used by the planner's invariants. *)
Definition address_le (s t : RegSpec) : Prop := address s <= address t.
Definition ends_before (s t : RegSpec) : Prop := spec_end s < address t.
Definition apart (s t : RegSpec) : Prop :=
  forall a, ~ (spec_occupies s a /\ spec_occupies t a).

(** Plan [p] spans the whole extent of [s]. *)
Definition spans (p : plan) (s : RegSpec) : Prop :=
  plan_start p <= address s /\ spec_end s <= plan_end p.

(** No two distinct plans read a common address. *)
Definition plans_disjoint (plans : list plan) : Prop :=
  forall i j p q, i <> j -> plans !! i = Some p -> plans !! j = Some q ->
  forall a, ~ (plan_reads p a /\ plan_reads q a).

(** Together the plans read every address each spec occupies. *)
Definition plans_cover (specs : list RegSpec) (plans : list plan) : Prop :=
  forall s a, s ∈ specs -> spec_occupies s a ->
  exists p, p ∈ plans /\ plan_reads p a.

(** No two distinct specs occupy a common address. *)
Definition specs_disjoint (specs : list RegSpec) : Prop :=
  forall i j s t, i <> j -> specs !! i = Some s -> specs !! j = Some t -> apart s t.

(** All specs name the same register bank. *)
Definition one_function (specs : list RegSpec) : Prop :=
  forall s t, s ∈ specs -> t ∈ specs -> func s = func t.

(** Plan [p] was opened by the first spec of its group, at that spec's
    address; it is no wider than the ceiling unless that spec alone is,
    and it ends where one of its members ends. *)
Definition plan_opened (p : plan) : Prop :=
  exists s g, plan_group p = s :: g
    /\ plan_start p = address s
    /\ plan_qty p <= Z.max MAX_QTY (count s)
    /\ exists m, m ∈ plan_group p /\ spec_end m = plan_end p.

(** Every spec of [group] but the first joined it within the ceiling
    counted from [start], and no more than 2 words past the end of a
    spec before it. *)
Definition group_joined (start : Z) (group : list RegSpec) : Prop :=
  forall (i : nat) nxt, (0 < i)%nat -> group !! i = Some nxt ->
    spec_end nxt - start + 1 <= MAX_QTY
    /\ exists (j : nat) g, (j < i)%nat /\ group !! j = Some g
                           /\ address nxt <= spec_end g + 2.

(** The read [read_plan] issues for plan [p] of bank [func_]: a holding
    read for ["holding"], an input read for anything else. *)
Definition plan_call (func_ : string) (p : plan) : call :=
  if String.eqb func_ "holding"
  then ReadHolding (plan_start p) (plan_qty p)
  else ReadInput (plan_start p) (plan_qty p).

(** The device answers a read of [qty] registers with at least [qty]
    words. *)
Definition full_answers {W} (tr : Transport W) : Prop :=
  forall start qty w words w',
    read_holding_registers tr start qty w = (inr words, w')
    \/ read_input_registers tr start qty w = (inr words, w') ->
    qty <= Z.of_nat (length words).

(** The specs of each bank, as [refresh_cache] selects them. *)
Definition holding_specs (st : AppState) : list RegSpec :=
  List.filter (fun s => String.eqb (func s) "holding") (regs st).
Definition input_specs (st : AppState) : list RegSpec :=
  List.filter (fun s => String.eqb (func s) "input") (regs st).

(** The calls of a cycle that runs to its end: the connection if there
    is no handle yet, then the reads of the holding plans, then those of
    the input plans. *)
Definition cycle_calls (st : AppState) : list call :=
  (match sol st with None => [Connect] | Some _ => [] end)
  ++ map (plan_call "holding") (merge_ranges (holding_specs st))
  ++ map (plan_call "input") (merge_ranges (input_specs st)).

(** The failure count after ticks that ended as [outs], in order, from
    the count [init]: a commit resets it, a failure adds 1. *)
Definition failures_after (init : Z) (outs : list outcome) : Z :=
  fold_left (fun acc out =>
               match out with
               | Committed => 0
               | Failed _ => acc + 1
               | Skipped | Escaped _ => acc
               end) outs init.

(** The device is up: connecting succeeds, and every read succeeds and
    is answered in full. *)
Definition device_up {W} (tr : Transport W) : Prop :=
  (forall w, (connect tr w).1 = None)
  /\ (forall start qty w, exists words,
        (read_holding_registers tr start qty w).1 = inr words
        /\ qty <= Z.of_nat (length words))
  /\ (forall start qty w, exists words,
        (read_input_registers tr start qty w).1 = inr words
        /\ qty <= Z.of_nat (length words)).

(** The key under which the decoding loop stores the value of [s]:
    [field_name], or [id] when [field_name] is empty. *)
Definition spec_writes (meas key : string) (s : RegSpec) : bool :=
  String.eqb (measurement s) meas
  && String.eqb (if String.eqb (field_name s) "" then id s else field_name s) key.

(** The last spec of a list that writes [key] of [meas], if any. *)
Definition last_writer (meas key : string) (specs : list RegSpec) : option RegSpec :=
  last (List.filter (spec_writes meas key) specs).

(** The read [read_plan] awaits for plan [p] of bank [func_], as a
    transition of the world. *)
Definition plan_read {W} (tr : Transport W) (func_ : string) (p : plan) (w : W)
  : (exn + list Z) * W :=
  if String.eqb func_ "holding"
  then read_holding_registers tr (plan_start p) (plan_qty p) w
  else read_input_registers tr (plan_start p) (plan_qty p) w.

(** The value stored under [meas] and [key] in a snapshot. *)
Definition cache_lookup (c : odict (odict float)) (meas key : string) : option float :=
  match od_get meas c with
  | Some fields => od_get key fields
  | None => None
  end.

(** The address-to-word dictionaries of the cycle started in world [w]:
    what [all_words] holds once the reads are done. *)
Definition words_read {W} (tr : Transport W) (st : AppState) (w : W)
  : exn + gmap string (gmap Z Z) :=
  let '(_, w0) := loop_time tr w in
  let '(_, _, w1, _) := ensure_client tr st w0 in
  (read_all tr (make_plans st) ∅ w1).1.1.

(** The handle after the first statement of the [try] block. *)
Definition sol_after (st : AppState) : option PySolarmanV5Async :=
  match sol st with
  | Some c => Some c
  | None => Some Client
  end.

(** A snapshot is a dictionary of dictionaries. *)
Definition cache_wf (c : odict (odict float)) : Prop :=
  od_wf c /\ Forall (fun mf => od_wf mf.2) c.

(** ** Example data *)

(** A spec with the defaults of the register map ([multiply = 1.0],
    [offset = 0.0], measurement ["deye"], no tags). *)
Definition example_spec (id_ : string) (address_ count_ : Z)
    (func_ dtype_ byte_order_ field_name_ : string) : RegSpec :=
  mkRegSpec id_ address_ count_ func_ dtype_ byte_order_ 1%float 0%float
            "deye" field_name_ ∅.

(** A holding register block of [count_] words at [address_]. *)
Definition block (address_ count_ : Z) : RegSpec :=
  example_spec "block" address_ count_ "holding" "uint16" "AB" "".

(** [round] on the values of the examples below, which are whole
    numbers: these round to themselves. *)
Definition round_whole (x : float) (ndigits : Z) : exn + float := inr x.

Definition example_cfg : Config := mkConfig 2 3 30%float.

(** A device that answers: the clock reads 5.0, a holding read returns
    [qty] words 0xFFFF, an input read the words 7 and 9. *)
Definition answering : Transport unit :=
  mkTransport unit
    (fun w => (5%float, w))
    (fun w => (None, w))
    (fun start qty w => (inr (replicate (Z.to_nat qty) 0xFFFF), w))
    (fun start qty w => (inr [7; 9], w)).

(** A device that cannot be reached. *)
Definition unreachable : Transport unit :=
  mkTransport unit
    (fun w => (5%float, w))
    (fun w => (Some NoSocketAvailableError, w))
    (fun start qty w => (inl NoSocketAvailableError, w))
    (fun start qty w => (inl NoSocketAvailableError, w)).

(** Two specs that write the same field of the same measurement. *)
Definition twice : list RegSpec :=
  [example_spec "a" 20 1 "input" "uint16" "AB" "power";
   example_spec "b" 21 1 "input" "uint16" "AB" "power"].

Definition example_state (regs_ : list RegSpec) (failures : Z) (open_until : float)
  : AppState :=
  mkAppState regs_ [] 0%float None failures open_until.

(** Three words, all ones. *)
Definition three_words : list Z := [0xFFFF; 0xFFFF; 0xFFFF].

(** A device that answers every read in full, each word being 0x12345
    (too wide for a register: the reader masks it to 0x2345). *)
Definition full_device : Transport unit :=
  mkTransport unit
    (fun w => (5%float, w))
    (fun w => (None, w))
    (fun start qty w => (inr (replicate (Z.to_nat qty) 0x12345), w))
    (fun start qty w => (inr (replicate (Z.to_nat qty) 0x12345), w)).

(** A holding and an input register. *)
Definition mixed : list RegSpec :=
  [example_spec "h" 10 2 "holding" "uint32" "ABCD" "energy";
   example_spec "i" 20 1 "input" "int16" "AB" "temp"].

(** The sleep between rounds leaves the example worlds as they are. *)
Definition no_sleep (w : unit) : unit := w.

(** A device whose every register holds its own address. *)
Definition address_echo : Transport unit :=
  mkTransport unit
    (fun w => (5%float, w))
    (fun w => (None, w))
    (fun start qty w => (inr (seqZ start qty), w))
    (fun start qty w => (inr (seqZ start qty), w)).

(** Three specs that write the same field of the same measurement. *)
Definition thrice : list RegSpec :=
  [example_spec "a" 20 1 "input" "uint16" "AB" "power";
   example_spec "b" 21 1 "input" "uint16" "AB" "power";
   example_spec "c" 22 1 "input" "uint16" "AB" "power"].

(** Two specs with the same, empty, field name and different ids. *)
Definition unnamed : list RegSpec :=
  [example_spec "a" 20 1 "input" "uint16" "AB" "";
   example_spec "b" 21 1 "input" "uint16" "AB" ""].

(** A device whose reads time out from address 20 on. *)
Definition times_out_from_20 : Transport unit :=
  mkTransport unit
    (fun w => (5%float, w))
    (fun w => (None, w))
    (fun start qty w =>
       (if start <? 20 then inr (replicate (Z.to_nat qty) 0x12345)
        else inl TimeoutError, w))
    (fun start qty w =>
       (if start <? 20 then inr (replicate (Z.to_nat qty) 0x12345)
        else inl TimeoutError, w)).

(** * Properties *)

(** ** Decoder *)

Section combine_words_facts.

(** Python's truth test [v & 2**n] reads bit [n] of [v]. *)
Lemma land_pow2_testbit (v n : Z) :
  0 <= n -> negb (Z.land v (2 ^ n) =? 0) = Z.testbit v n.
Proof.
  intros Hn.
  assert (Hland : Z.land v (2 ^ n) = if Z.testbit v n then 2 ^ n else 0).
  { apply Z.bits_inj'; intros m Hm.
    rewrite Z.land_spec, Z.pow2_bits_eqb by lia.
    destruct (Z.eqb_spec n m) as [->|Hne].
    - destruct (Z.testbit v m); simpl.
      + symmetry; apply Z.pow2_bits_true; lia.
      + symmetry; apply Z.bits_0.
    - rewrite andb_false_r.
      destruct (Z.testbit v n).
      + symmetry; apply Z.pow2_bits_false; lia.
      + symmetry; apply Z.bits_0. }
  rewrite Hland.
  destruct (Z.testbit v n); [|reflexivity].
  assert (0 < 2 ^ n) by (apply Z.pow_pos_nonneg; lia).
  destruct (Z.eqb_spec (2 ^ n) 0); [lia|reflexivity].
Qed.

Lemma testbit_low_word (w : Z) : Z.testbit (Z.land w 0xFFFF) 15 = Z.testbit w 15.
Proof. rewrite Z.land_spec. change (Z.testbit 0xFFFF 15) with true. apply andb_true_r. Qed.

(** C8. For a single word [w], [combine_words] returns [w & 0xFFFF],
    except that for dtype int16 with bit 15 of [w] set it returns
    [(w & 0xFFFF) - 0x10000]; so [0x8000] as int16 is -32768 and
    [0x7FFF] as int16 is 32767, whatever the byte order. *)
Theorem combine_words_single (w : Z) (dtype byte_order : string) :
  combine_words [w] dtype byte_order =
    (if String.eqb dtype "int16" && Z.testbit w 15
     then Z.land w 0xFFFF - 0x10000 else Z.land w 0xFFFF)
  /\ combine_words [0x8000] "int16" byte_order = -32768
  /\ combine_words [0x7FFF] "int16" byte_order = 32767.
Proof.
  split; [|split; reflexivity].
  unfold combine_words.
  change 0x8000 with (2 ^ 15).
  rewrite land_pow2_testbit, testbit_low_word by lia.
  destruct (String.eqb dtype "int16"), (Z.testbit w 15); reflexivity.
Qed.

(** C7, as the code has it. For two words, [combine_words] takes [w1]
    as the high and [w0] as the low word under byte order CDAB, and
    [w0] as the high and [w1] as the low word under any other byte
    order (each word reduced [& 0xFFFF]); it returns
    [(high << 16) | low], minus [0x100000000] when dtype is int32 and
    bit 31 of that value is set.  In particular
    [combine_words [0x0001; 0x0000] "uint32" "CDAB" = 1]. *)
Theorem combine_words_pair (w0 w1 : Z) (dtype byte_order : string) :
  combine_words [w0; w1] dtype byte_order =
    (let val := Z.lor (Z.shiftl (high_word w0 w1 byte_order) 16)
                      (low_word w0 w1 byte_order) in
     if String.eqb dtype "int32" && Z.testbit val 31
     then val - 0x100000000 else val)
  /\ combine_words [0x0001; 0x0000] "uint32" "CDAB" = 1.
Proof.
  split; [|reflexivity].
  unfold combine_words, high_word, low_word.
  change 0x80000000 with (2 ^ 31).
  destruct (String.eqb byte_order "CDAB"); cbv beta iota zeta;
    rewrite land_pow2_testbit by lia;
    destruct (String.eqb dtype "int32"); cbn [andb]; try reflexivity;
    match goal with |- context [Z.testbit ?v 31] => destruct (Z.testbit v 31) end;
    reflexivity.
Qed.

(** C7 as stated fails: with dtype int32 the result is not
    [(high << 16) | low] once bit 31 is set. *)
Lemma combine_words_pair_not_plain_or :
  combine_words [0x8000; 0x0000] "int32" "ABCD"
    <> Z.lor (Z.shiftl 0x8000 16) 0x0000.
Proof. vm_compute. discriminate. Qed.

(** C6, as the code has it. Under ABCD the first word is the high one:
    [[0x0000; 0x8000]] as int32 is 32768, bit 31 being clear; the value
    -2147483648 is the one of [[0x8000; 0x0000]] under ABCD, or of
    [[0x0000; 0x8000]] under CDAB. *)
Theorem combine_words_int32_sign_example :
  combine_words [0x0000; 0x8000] "int32" "ABCD" = 32768
  /\ combine_words [0x8000; 0x0000] "int32" "ABCD" = -2147483648
  /\ combine_words [0x0000; 0x8000] "int32" "CDAB" = -2147483648.
Proof. repeat split; reflexivity. Qed.

(** C6 as stated fails. *)
Lemma combine_words_abcd_low_word_no_sign :
  combine_words [0x0000; 0x8000] "int32" "ABCD" <> -2147483648.
Proof. vm_compute. discriminate. Qed.

(** For words that are 16-bit already the masks are the identity. *)
Lemma land_word_id (w : Z) : 0 <= w < 0x10000 -> Z.land w 0xFFFF = w.
Proof.
  intros Hw. change 0xFFFF with (Z.ones 16).
  rewrite Z.land_ones by lia. apply Z.mod_small. lia.
Qed.
End combine_words_facts.

(** ** Range planner *)

Section merge_ranges_facts.
Implicit Types (s t : RegSpec) (l specs group : list RegSpec) (p q : plan).

(** *** The sort *)

Lemma insert_by_address_perm s l : insert_by_address s l ≡ₚ s :: l.
Proof.
  induction l as [|x l IH]; simpl; [done|].
  destruct (address s <=? address x); [done|].
  rewrite IH. apply perm_swap.
Qed.

Lemma sorted_by_address_perm specs : sorted_by_address specs ≡ₚ specs.
Proof.
  induction specs as [|x specs IH]; simpl; [done|].
  rewrite insert_by_address_perm. by constructor.
Qed.

Lemma insert_by_address_sorted s l :
  StronglySorted address_le l -> StronglySorted address_le (insert_by_address s l).
Proof.
  induction 1 as [|x l Hl IH Hx]; simpl.
  - repeat constructor.
  - destruct (Z.leb_spec (address s) (address x)) as [Hle|Hgt].
    + constructor; [by constructor|].
      constructor; [done|].
      eapply Forall_impl; [exact Hx|]. unfold address_le; intros; lia.
    + constructor; [done|].
      rewrite insert_by_address_perm. constructor; [|done].
      unfold address_le; lia.
Qed.

Lemma sorted_by_address_sorted specs :
  StronglySorted address_le (sorted_by_address specs).
Proof.
  induction specs; simpl; [constructor|by apply insert_by_address_sorted].
Qed.

(** The sort is stable: specs of equal address keep their order. *)
Lemma insert_by_address_stable a s l :
  List.filter (fun x => address x =? a) (insert_by_address s l)
  = List.filter (fun x => address x =? a) (s :: l).
Proof.
  induction l as [|x l IH]; [done|].
  cbn [insert_by_address].
  destruct (Z.leb_spec (address s) (address x)) as [Hle|Hgt]; [done|].
  cbn [List.filter] in *. rewrite IH.
  destruct (Z.eqb_spec (address s) a), (Z.eqb_spec (address x) a); try done; lia.
Qed.

Lemma sorted_by_address_stable a specs :
  List.filter (fun x => address x =? a) (sorted_by_address specs)
  = List.filter (fun x => address x =? a) specs.
Proof.
  induction specs as [|x specs IH]; [done|].
  cbn [sorted_by_address foldr]. rewrite insert_by_address_stable.
  cbn [List.filter]. fold (sorted_by_address specs). by rewrite IH.
Qed.

(** *** The walk *)

(** Every spec of the group in progress and of the specs still to be
    walked ends up in the group of an emitted plan that spans it. *)
Lemma merge_walk_member l : forall start end_ group s,
  StronglySorted address_le l ->
  Forall (fun x => start <= address x) l ->
  Forall (fun g => start <= address g /\ spec_end g <= end_) group ->
  s ∈ group ++ l ->
  exists p, p ∈ merge_walk start end_ group l /\ s ∈ plan_group p /\ spans p s.
Proof.
  induction l as [|nxt l IH]; intros start end_ group s Hs Hge Hg Hin.
  - rewrite app_nil_r in Hin. eexists; split; [apply list_elem_of_here|].
    split; [done|].
    rewrite Forall_forall in Hg. destruct (Hg _ Hin).
    unfold spans, plan_end, plan_start, plan_qty; simpl. lia.
  - apply StronglySorted_inv in Hs as [Hs Hnxt].
    apply Forall_cons in Hge as [Hge1 Hge].
    cbn [merge_walk]; cbv zeta.
    destruct (_ && _) eqn:Hc.
    + apply (IH start (Z.max end_ (address nxt + count nxt - 1)) (group ++ [nxt]) s);
        [done|done| |by rewrite <- app_assoc].
      apply Forall_app; split.
      * eapply Forall_impl; [exact Hg|]. simpl; intros; lia.
      * constructor; [|constructor]. unfold spec_end. lia.
    + apply elem_of_app in Hin as [Hin|Hin].
      * eexists; split; [apply list_elem_of_here|].
        split; [done|].
        rewrite Forall_forall in Hg. destruct (Hg _ Hin).
        unfold spans, plan_end, plan_start, plan_qty; simpl. lia.
      * destruct (IH (address nxt) (address nxt + count nxt - 1) [nxt] s)
          as (p & Hp & Hmem & Hspan); [done|exact Hnxt| |done|].
        { constructor; [|constructor]. unfold spec_end. lia. }
        exists p. split; [by apply list_elem_of_further|done].
Qed.

(** Every emitted plan spans each member of its group: its quantity is
    never cut below what the group needs. *)
Lemma merge_walk_spans l : forall start end_ group,
  StronglySorted address_le l ->
  Forall (fun x => start <= address x) l ->
  Forall (fun g => start <= address g /\ spec_end g <= end_) group ->
  Forall (fun p => Forall (spans p) (plan_group p)) (merge_walk start end_ group l).
Proof.
  induction l as [|nxt l IH]; intros start end_ group Hs Hge Hg.
  - constructor; [|constructor].
    eapply Forall_impl; [exact Hg|].
    unfold spans, plan_end, plan_start, plan_qty; simpl. intros; lia.
  - apply StronglySorted_inv in Hs as [Hs Hnxt].
    apply Forall_cons in Hge as [Hge1 Hge].
    cbn [merge_walk]; cbv zeta.
    destruct (_ && _) eqn:Hc.
    + apply IH; [done|done|].
      apply Forall_app; split.
      * eapply Forall_impl; [exact Hg|]. simpl; intros; lia.
      * constructor; [|constructor]. unfold spec_end. lia.
    + constructor.
      * eapply Forall_impl; [exact Hg|].
        unfold spans, plan_end, plan_start, plan_qty; simpl. intros; lia.
      * apply IH; [done|exact Hnxt|].
        constructor; [|constructor]. unfold spec_end. lia.
Qed.

(** No emitted plan starts before the start of the group in progress. *)
Lemma merge_walk_starts l : forall start end_ group,
  StronglySorted address_le l ->
  Forall (fun x => start <= address x) l ->
  Forall (fun q => start <= plan_start q) (merge_walk start end_ group l).
Proof.
  induction l as [|nxt l IH]; intros start end_ group Hs Hge.
  - constructor; [|constructor]. unfold plan_start; simpl. lia.
  - apply StronglySorted_inv in Hs as [Hs Hnxt].
    apply Forall_cons in Hge as [Hge1 Hge].
    cbn [merge_walk]; cbv zeta.
    destruct (_ && _).
    + by apply IH.
    + constructor; [unfold plan_start; simpl; lia|].
      eapply Forall_impl; [apply IH; [done|exact Hnxt]|].
      simpl; intros; lia.
Qed.

(** A spec joins a group in progress only within the ceiling: every
    member of an emitted group either opens it or ends within [MAX_QTY]
    words of its start. *)
Lemma merge_walk_ceiling l : forall start end_ group,
  Forall (fun g => address g = start \/ spec_end g - start + 1 <= MAX_QTY) group ->
  Forall (fun p => Forall (fun g => address g = plan_start p
                                   \/ spec_end g - plan_start p + 1 <= MAX_QTY)
                          (plan_group p))
         (merge_walk start end_ group l).
Proof.
  induction l as [|nxt l IH]; intros start end_ group Hg.
  - by repeat constructor.
  - cbn [merge_walk]; cbv zeta.
    destruct (_ && _) eqn:Hc.
    + apply IH. apply Forall_app; split; [done|].
      constructor; [|constructor]. right.
      apply andb_prop in Hc as [_ Hc]. apply Z.leb_le in Hc.
      unfold spec_end. lia.
    + constructor; [done|].
      apply IH. constructor; [by left|constructor].
Qed.

(** When each spec ends before the next one starts, so do the plans. *)
Lemma merge_walk_ordered l : forall start end_ group,
  StronglySorted address_le l ->
  StronglySorted ends_before l ->
  Forall (fun x => end_ < address x) l ->
  StronglySorted (fun p q => plan_end p < plan_start q)
                 (merge_walk start end_ group l).
Proof.
  induction l as [|nxt l IH]; intros start end_ group Hs Hd Hlt.
  - repeat constructor.
  - apply StronglySorted_inv in Hs as [Hs Hnxt].
    apply StronglySorted_inv in Hd as [Hd Hdn].
    apply Forall_cons in Hlt as [Hlt1 Hlt].
    cbn [merge_walk]; cbv zeta.
    destruct (_ && _).
    + apply IH; [done|done|].
      rewrite Forall_forall in Hlt, Hdn. apply Forall_forall; intros x Hx.
      specialize (Hlt _ Hx). specialize (Hdn _ Hx).
      unfold ends_before, spec_end in Hdn. lia.
    + constructor.
      * apply IH; [done|done|exact Hdn].
      * eapply Forall_impl; [apply merge_walk_starts; [done|exact Hnxt]|].
        unfold plan_end, plan_start, plan_qty; simpl. intros; lia.
Qed.
End merge_ranges_facts.

Section merge_ranges_results.
Implicit Types (s t : RegSpec) (l specs group : list RegSpec) (p q : plan).

Lemma StronglySorted_lookup_lt {A} (R : A -> A -> Prop) (l : list A) :
  StronglySorted R l ->
  forall (i j : nat) x y, (i < j)%nat -> l !! i = Some x -> l !! j = Some y -> R x y.
Proof.
  induction 1 as [|a l Hl IH Ha]; intros i j x y Hij Hi Hj; [done|].
  destruct j as [|j]; [lia|]. simpl in Hj.
  destruct i as [|i]; simpl in Hi.
  - injection Hi as ->. rewrite Forall_forall in Ha.
    apply Ha. by eapply list_elem_of_lookup_2.
  - apply (IH i j); [lia|done|done].
Qed.

Lemma apart_sym s t : apart s t -> apart t s.
Proof. intros H a [? ?]. by apply (H a). Qed.

(** [specs_disjoint], by induction on the list. *)
Lemma specs_disjoint_cons s l :
  specs_disjoint (s :: l) -> Forall (apart s) l /\ specs_disjoint l.
Proof.
  intros H. split.
  - apply Forall_forall. intros t Ht.
    apply list_elem_of_lookup_1 in Ht as [k Hk].
    by apply (H 0%nat (S k)).
  - intros i j x y Hij Hi Hj. apply (H (S i) (S j)); [lia|done|done].
Qed.

Lemma insert_by_address_pairs s l :
  Forall (apart s) l -> ForallOrdPairs apart l ->
  ForallOrdPairs apart (insert_by_address s l).
Proof.
  intros Hs Hl. induction Hl as [|x l Hx Hl IH]; simpl.
  - repeat constructor.
  - apply Forall_cons in Hs as [Hsx Hs].
    destruct (address s <=? address x).
    + constructor; [by constructor|by constructor].
    + constructor; [|by apply IH].
      rewrite insert_by_address_perm. constructor; [by apply apart_sym|done].
Qed.

Lemma sorted_by_address_pairs specs :
  specs_disjoint specs -> ForallOrdPairs apart (sorted_by_address specs).
Proof.
  induction specs as [|s specs IH]; intros H; simpl; [constructor|].
  apply specs_disjoint_cons in H as [Hs H].
  apply insert_by_address_pairs; [|by apply IH].
  by rewrite sorted_by_address_perm.
Qed.

(** Sorted specs of positive width, no two of which overlap, each end
    before the next starts. *)
Lemma sorted_apart_ends_before l :
  Forall (fun s => 1 <= count s) l ->
  StronglySorted address_le l -> ForallOrdPairs apart l ->
  StronglySorted ends_before l.
Proof.
  intros Hc Hs. induction Hs as [|s l Hs IH Hle]; intros Hp; [constructor|].
  apply Forall_cons in Hc as [Hcs Hc].
  inversion Hp as [|? ? Hap Hp']; subst.
  constructor; [by apply IH|].
  rewrite Forall_forall in Hle, Hap, Hc. apply Forall_forall; intros t Ht.
  specialize (Hle _ Ht). specialize (Hap _ Ht (address t)). specialize (Hc _ Ht).
  unfold ends_before, address_le, spec_occupies, spec_end in *. lia.
Qed.

(** Every spec is in the group of a plan that spans it. *)
Lemma merge_ranges_member specs s :
  s ∈ specs ->
  exists p, p ∈ merge_ranges specs /\ s ∈ plan_group p /\ spans p s.
Proof.
  intros Hin. unfold merge_ranges.
  pose proof (sorted_by_address_sorted specs) as Hs.
  rewrite <- (sorted_by_address_perm specs) in Hin.
  destruct (sorted_by_address specs) as [|x l]; [by apply elem_of_nil in Hin|].
  apply StronglySorted_inv in Hs as [Hs Hx].
  apply merge_walk_member; [done|exact Hx| |done].
  constructor; [|constructor]. unfold spec_end. lia.
Qed.

Lemma merge_ranges_spans specs :
  Forall (fun p => Forall (spans p) (plan_group p)) (merge_ranges specs).
Proof.
  unfold merge_ranges.
  pose proof (sorted_by_address_sorted specs) as Hs.
  destruct (sorted_by_address specs) as [|x l]; [constructor|].
  apply StronglySorted_inv in Hs as [Hs Hx].
  apply merge_walk_spans; [done|exact Hx|].
  constructor; [|constructor]. unfold spec_end. lia.
Qed.

Lemma merge_ranges_cover specs : plans_cover specs (merge_ranges specs).
Proof.
  intros s a Hin Ha.
  destruct (merge_ranges_member specs s Hin) as (p & Hp & _ & Hspan).
  exists p. split; [done|].
  unfold plan_reads, spans, spec_occupies in *. lia.
Qed.

Lemma merge_ranges_ordered specs :
  Forall (fun s => 1 <= count s) specs -> specs_disjoint specs ->
  StronglySorted (fun p q => plan_end p < plan_start q) (merge_ranges specs).
Proof.
  intros Hc Hd. unfold merge_ranges.
  pose proof (sorted_by_address_sorted specs) as Hs.
  pose proof (sorted_by_address_pairs specs Hd) as Hp.
  rewrite <- (sorted_by_address_perm specs) in Hc.
  pose proof (sorted_apart_ends_before _ Hc Hs Hp) as He.
  destruct (sorted_by_address specs) as [|x l]; [constructor|].
  apply StronglySorted_inv in Hs as [Hs Hx].
  apply StronglySorted_inv in He as [He Hxe].
  apply merge_walk_ordered; [done|done|exact Hxe].
Qed.

(** C4, as the code has it. For every list of specs the plans of
    [merge_ranges] together read every address each spec occupies; and
    when every spec has a count of at least 1 and no two specs occupy a
    common address, no two distinct plans read a common address. *)
Theorem merge_ranges_cover_and_disjoint specs :
  plans_cover specs (merge_ranges specs)
  /\ (Forall (fun s => 1 <= count s) specs -> specs_disjoint specs ->
      plans_disjoint (merge_ranges specs)).
Proof.
  split; [apply merge_ranges_cover|].
  intros Hc Hd i j p q Hij Hi Hj a [Hp Hq].
  pose proof (merge_ranges_ordered specs Hc Hd) as Ho.
  unfold plan_reads in *.
  destruct (Nat.lt_total i j) as [Hlt|[->|Hlt]]; [|done|].
  - pose proof (StronglySorted_lookup_lt _ _ Ho i j p q Hlt Hi Hj). simpl in *. lia.
  - pose proof (StronglySorted_lookup_lt _ _ Ho j i q p Hlt Hj Hi). simpl in *. lia.
Qed.

Lemma merge_ranges_ceiling specs :
  Forall (fun p => Forall (fun g => address g = plan_start p
                                   \/ spec_end g - plan_start p + 1 <= MAX_QTY)
                          (plan_group p))
         (merge_ranges specs).
Proof.
  unfold merge_ranges.
  destruct (sorted_by_address specs) as [|x l]; [constructor|].
  apply merge_walk_ceiling. constructor; [by left|constructor].
Qed.

(** C5. A spec whose own count exceeds 120 is emitted in a plan that
    starts at the spec's address, has a quantity of at least that count
    (so above the ceiling) and reads every address the spec occupies;
    the plan spans every member of its group: the ceiling decides only
    whether a further spec joins a group, and cuts no group short. *)
Theorem merge_ranges_oversized_spec specs s :
  s ∈ specs -> MAX_QTY < count s ->
  exists p, p ∈ merge_ranges specs /\ s ∈ plan_group p
    /\ plan_start p = address s
    /\ count s <= plan_qty p
    /\ (forall a, spec_occupies s a -> plan_reads p a)
    /\ Forall (spans p) (plan_group p).
Proof.
  intros Hin Hbig.
  destruct (merge_ranges_member specs s Hin) as (p & Hp & Hmem & Hspan).
  pose proof (merge_ranges_ceiling specs) as Hceil.
  rewrite Forall_forall in Hceil. specialize (Hceil _ Hp).
  rewrite Forall_forall in Hceil. specialize (Hceil _ Hmem).
  assert (Hstart : plan_start p = address s).
  { unfold spans, spec_end in *. lia. }
  exists p. split; [done|]. split; [done|]. split; [done|].
  split; [unfold spans, plan_end, spec_end in Hspan; lia|].
  split; [unfold spans, spec_occupies, plan_reads in *; lia|].
  pose proof (merge_ranges_spans specs) as Hall.
  rewrite Forall_forall in Hall. by apply Hall.
Qed.
End merge_ranges_results.

(** ** Poll cycle *)

Section refresh_cache_facts.
Context {W : Type}.
Variable tr : Transport W.
Variable cfg : Config.
Variable py_round : float -> Z -> exn + float.

Lemma od_get_set_eq {V} (k : string) (v : V) (d : odict V) :
  od_get k (od_set k v d) = Some v.
Proof.
  induction d as [|[k' v'] d IH]; simpl.
  - by rewrite String.eqb_refl.
  - destruct (String.eqb k k') eqn:E; simpl; by rewrite E.
Qed.

Lemma od_get_set_ne {V} (k k' : string) (v : V) (d : odict V) :
  k <> k' -> od_get k' (od_set k v d) = od_get k' d.
Proof.
  intros Hne. induction d as [|[k1 v1] d IH]; simpl.
  - destruct (String.eqb_spec k' k); [congruence|done].
  - destruct (String.eqb_spec k k1) as [->|]; simpl.
    + destruct (String.eqb_spec k' k1); [congruence|done].
    + by rewrite IH.
Qed.

Lemma od_set_keys {V} (k : string) (v : V) (d : odict V) :
  map fst (od_set k v d)
  = match od_get k d with Some _ => map fst d | None => map fst d ++ [k] end.
Proof.
  induction d as [|[k1 v1] d IH]; simpl; [done|].
  destruct (String.eqb_spec k k1) as [->|]; simpl; [done|].
  rewrite IH. by destruct (od_get k d).
Qed.

Lemma od_get_None_keys {V} (k : string) (d : odict V) :
  od_get k d = None -> k ∉ map fst d.
Proof.
  induction d as [|[k1 v1] d IH]; simpl; intros H.
  - apply not_elem_of_nil.
  - destruct (String.eqb_spec k k1); [done|].
    apply not_elem_of_cons. split; [done|by apply IH].
Qed.

Lemma od_set_wf {V} (k : string) (v : V) (d : odict V) :
  od_wf d -> od_wf (od_set k v d).
Proof.
  unfold od_wf. intros Hd. rewrite od_set_keys.
  destruct (od_get k d) eqn:E; [done|].
  apply NoDup_app. split; [done|]. split; [|apply NoDup_singleton].
  intros x Hx Hk. apply list_elem_of_singleton in Hk as ->.
  by apply (od_get_None_keys _ _ E).
Qed.

Lemma cache_put_lookup_eq meas key val c :
  cache_lookup (cache_put meas key val c) meas key = Some val.
Proof. unfold cache_lookup, cache_put. by rewrite !od_get_set_eq. Qed.

Lemma cache_put_lookup_ne meas key val c meas' key' :
  ~ (meas' = meas /\ key' = key) ->
  cache_lookup (cache_put meas key val c) meas' key' = cache_lookup c meas' key'.
Proof.
  intros Hne. unfold cache_lookup, cache_put.
  destruct (decide (meas = meas')) as [<-|Hm].
  - rewrite od_get_set_eq. rewrite od_get_set_ne by (intros ->; by apply Hne).
    by destruct (od_get meas c).
  - by rewrite od_get_set_ne.
Qed.

Lemma od_set_Forall {V} (P : V -> Prop) (k : string) (v : V) (d : odict V) :
  P v -> Forall (fun kv => P kv.2) d -> Forall (fun kv => P kv.2) (od_set k v d).
Proof.
  intros Hv. induction 1 as [|[k1 v1] d Hx Hd IH]; simpl.
  - by repeat constructor.
  - destruct (String.eqb k k1); constructor; done.
Qed.

Lemma od_get_Forall {V} (P : V -> Prop) (k : string) (v : V) (d : odict V) :
  Forall (fun kv => P kv.2) d -> od_get k d = Some v -> P v.
Proof.
  induction 1 as [|[k1 v1] d Hx Hd IH]; simpl; [done|].
  destruct (String.eqb k k1); [by intros [= <-]|done].
Qed.

Lemma cache_put_wf meas key val c : cache_wf c -> cache_wf (cache_put meas key val c).
Proof.
  intros [Hc Hf]. unfold cache_put. split; [by apply od_set_wf|].
  apply (od_set_Forall od_wf); [|done].
  apply od_set_wf. destruct (od_get meas c) eqn:E; simpl.
  - by apply (od_get_Forall od_wf meas _ c).
  - constructor.
Qed.

Lemma build_cache_wf all_words specs : forall c0 c,
  cache_wf c0 -> build_cache cfg py_round all_words specs c0 = inr c -> cache_wf c.
Proof.
  induction specs as [|s specs IH]; simpl; intros c0 c Hc0 H.
  - by injection H as <-.
  - destruct (decode_spec cfg py_round all_words s) as [e|v]; [done|].
    eapply IH; [|exact H]. by apply cache_put_wf.
Qed.

Lemma build_cache_app all_words l1 l2 : forall c0 c,
  build_cache cfg py_round all_words (l1 ++ l2) c0 = inr c ->
  exists c1, build_cache cfg py_round all_words l1 c0 = inr c1
          /\ build_cache cfg py_round all_words l2 c1 = inr c.
Proof.
  induction l1 as [|s l1 IH]; simpl; intros c0 c H; [by exists c0|].
  destruct (decode_spec cfg py_round all_words s) as [e|v]; [done|].
  by apply IH.
Qed.

(** Specs writing other keys leave the value under a key as it is. *)
Lemma build_cache_other_keys all_words meas key l : forall c0 c,
  Forall (fun s => ~ (measurement s = meas /\ out_key s = key)) l ->
  build_cache cfg py_round all_words l c0 = inr c ->
  cache_lookup c meas key = cache_lookup c0 meas key.
Proof.
  induction l as [|s l IH]; simpl; intros c0 c Hl H.
  - by injection H as <-.
  - apply Forall_cons in Hl as [Hs Hl].
    destruct (decode_spec cfg py_round all_words s) as [e|v]; [done|].
    rewrite (IH _ _ Hl H). apply cache_put_lookup_ne.
    intros [-> ->]. by apply Hs.
Qed.

(** Last write wins: the value under the key of a spec that no later
    spec overwrites is the decoded value of that spec. *)
Lemma build_cache_last_write all_words l1 s l3 c0 c :
  Forall (fun s' => ~ (measurement s' = measurement s /\ out_key s' = out_key s)) l3 ->
  build_cache cfg py_round all_words (l1 ++ s :: l3) c0 = inr c ->
  exists v, decode_spec cfg py_round all_words s = inr v
         /\ cache_lookup c (measurement s) (out_key s) = Some v.
Proof.
  intros Hl3 H.
  apply build_cache_app in H as (c1 & _ & H). simpl in H.
  destruct (decode_spec cfg py_round all_words s) as [e|v]; [done|].
  exists v. split; [done|].
  rewrite (build_cache_other_keys _ _ _ _ _ _ Hl3 H).
  apply cache_put_lookup_eq.
Qed.

(** The [try] block touches no field of the state but the handle. *)
Lemma try_block_state st w r st1 w1 cs :
  try_block tr cfg py_round st w = (r, st1, w1, cs) ->
  st1 = set_sol st (sol_after st).
Proof.
  unfold try_block, ensure_client, sol_after.
  destruct (sol st) as [c|] eqn:Hsol.
  - destruct (read_all tr (make_plans st) ∅ w) as [[[e|aw] w2] cs2];
      intros [= _ <- _ _]; destruct st; simpl in *; by subst.
  - destruct (connect tr w) as [[e|] w'].
    + by intros [= _ <- _ _].
    + destruct (read_all tr (make_plans st) ∅ w') as [[[e|aw] w2] cs2];
        by intros [= _ <- _ _].
Qed.

(** What the [try] block computes when it completes. *)
Lemma try_block_result st w new_cache st1 w1 cs :
  try_block tr cfg py_round st w = (inr new_cache, st1, w1, cs) ->
  exists all_words,
    (let '(_, _, w', _) := ensure_client tr st w in
     (read_all tr (make_plans st) ∅ w').1.1) = inr all_words
    /\ build_cache cfg py_round all_words (regs st) [] = inr new_cache.
Proof.
  unfold try_block.
  destruct (ensure_client tr st w) as [[[[e|] st0] w0] cs0]; [by intros [=]|].
  destruct (read_all tr (make_plans st) ∅ w0) as [[[e|aw] w2] cs2]; [by intros [=]|].
  intros [= H _ _ _]. by exists aw.
Qed.
End refresh_cache_facts.

Section refresh_cache_results.
Context {W : Type}.
Variable tr : Transport W.
Variable cfg : Config.
Variable py_round : float -> Z -> exn + float.

(** C1. At a tick where the breaker is open (the loop time read at the
    start of the tick is below [breaker_open_until]) the cycle is
    skipped: no call is made on the device client, neither connect nor
    read, and the state is returned as it was: cache, cache timestamp,
    failure count and open-until included.  The world has only had its
    clock read. *)
Theorem refresh_cache_open_breaker_skips st (w : W) :
  PrimFloat.ltb (loop_time tr w).1 (breaker_open_until st) = true ->
  refresh_cache tr cfg py_round st w = (Skipped, st, (loop_time tr w).2, []).
Proof.
  intros Hopen. unfold refresh_cache.
  destruct (loop_time tr w) as [now_loop w0]; simpl in Hopen |- *.
  by rewrite Hopen.
Qed.

(** A cycle ends in [Failed e] exactly when the breaker was closed and
    the [try] block raised [e], one of the errors of the [except]
    clause. *)
Lemma refresh_cache_failed_iff st (w : W) e st' w' cs :
  refresh_cache tr cfg py_round st w = (Failed e, st', w', cs) <->
  PrimFloat.ltb (loop_time tr w).1 (breaker_open_until st) = false
  /\ handled e = true
  /\ exists st1,
       try_block tr cfg py_round st (loop_time tr w).2 = (inl e, st1, w', cs)
       /\ st' = record_failure cfg st1 (loop_time tr w).1.
Proof.
  unfold refresh_cache.
  destruct (loop_time tr w) as [now_loop w0]; simpl.
  destruct (PrimFloat.ltb now_loop (breaker_open_until st)).
  { split; [by intros [=]|by intros [[=] _]]. }
  destruct (try_block tr cfg py_round st w0) as [[[[e'|nc] st1] w1] cs1].
  - destruct (handled e') eqn:Hh.
    + split.
      * intros [= <- <- <- <-]. repeat split; try done. by exists st1.
      * intros (_ & _ & st2 & [= <- <- <- <-] & ->). done.
    + split; [by intros [=]|].
      intros (_ & He & st2 & [= <- <- <- <-] & _). congruence.
  - destruct (loop_time tr w1). split; [by intros [=]|].
    by intros (_ & _ & st2 & [=] & _).
Qed.

(** C2, as the code has it. The transitions of the breaker over one
    tick, by what the [try] block of the cycle does.  A cycle that runs
    to its end commits and resets [breaker_failures] to 0, leaving
    [breaker_open_until].  A cycle whose [try] block raises one of the
    five errors of the [except] clause (V5FrameError,
    NoSocketAvailableError, TimeoutError, KeyError, OSError) fails: it
    adds 1 to [breaker_failures], and sets [breaker_open_until] to the
    loop time read at the start of the tick plus [CB_OPEN_SECONDS]
    exactly when the new count is at least [CB_FAIL_LIMIT].  A tick
    skipped for an open breaker, and a cycle whose [try] block raises
    any other error, which then leaves [refresh_cache], change neither
    field. *)
Theorem refresh_cache_breaker_transitions st (w : W) :
  let now_loop := (loop_time tr w).1 in
  let '(r, _, _, _) := try_block tr cfg py_round st (loop_time tr w).2 in
  let '(out, st', _, _) := refresh_cache tr cfg py_round st w in
  if PrimFloat.ltb now_loop (breaker_open_until st) then
    out = Skipped
    /\ breaker_failures st' = breaker_failures st
    /\ breaker_open_until st' = breaker_open_until st
  else
    match r with
    | inr _ =>
        out = Committed
        /\ breaker_failures st' = 0
        /\ breaker_open_until st' = breaker_open_until st
    | inl ((V5FrameError | NoSocketAvailableError | TimeoutError
            | KeyError | OSError) as e) =>
        out = Failed e
        /\ breaker_failures st' = breaker_failures st + 1
        /\ breaker_open_until st' =
             (if CB_FAIL_LIMIT cfg <=? breaker_failures st + 1
              then PrimFloat.add now_loop (CB_OPEN_SECONDS cfg)
              else breaker_open_until st)
    | inl (OverflowError as e) =>
        out = Escaped e
        /\ breaker_failures st' = breaker_failures st
        /\ breaker_open_until st' = breaker_open_until st
    end.
Proof.
  unfold refresh_cache.
  destruct (loop_time tr w) as [now_loop w0]; simpl.
  destruct (try_block tr cfg py_round st w0) as [[[r st1] w1] cs] eqn:Htry.
  destruct (PrimFloat.ltb now_loop (breaker_open_until st)); [done|].
  apply try_block_state in Htry as ->.
  destruct r as [e|nc].
  - destruct e; simpl; unfold record_failure; simpl;
      try destruct (CB_FAIL_LIMIT cfg <=? breaker_failures st + 1); done.
  - destruct (loop_time tr w1); done.
Qed.

(** C3. In a state that has its client handle, as every tick of the
    worker finds it, let the breaker be closed and the [try] block of
    the cycle raise a transport error, a frame error, a timeout or the
    [KeyError] of an address missing from the word map (the five errors
    of the [except] clause).  Then the cycle fails, and the state it
    leaves is the state it found with the failure count grown by 1 and
    [breaker_open_until] either as before or, when the count has reached
    [CB_FAIL_LIMIT], the loop time read at the start of the tick plus
    [CB_OPEN_SECONDS]: the cache, its timestamp, the register list and
    the handle are as they were, and nothing of the snapshot under
    construction is stored. *)
Theorem refresh_cache_failure_keeps_cache st (w : W) c e st1 w1 cs :
  sol st = Some c ->
  PrimFloat.ltb (loop_time tr w).1 (breaker_open_until st) = false ->
  try_block tr cfg py_round st (loop_time tr w).2 = (inl e, st1, w1, cs) ->
  e = V5FrameError \/ e = NoSocketAvailableError \/ e = TimeoutError
  \/ e = KeyError \/ e = OSError ->
  refresh_cache tr cfg py_round st w
  = (Failed e,
     mkAppState (regs st) (cache st) (cache_ts st) (sol st)
                (breaker_failures st + 1)
                (if CB_FAIL_LIMIT cfg <=? breaker_failures st + 1
                 then PrimFloat.add (loop_time tr w).1 (CB_OPEN_SECONDS cfg)
                 else breaker_open_until st),
     w1, cs).
Proof.
  intros Hsol Hclosed Htry He. unfold refresh_cache.
  destruct (loop_time tr w) as [now_loop w0]; simpl in *.
  rewrite Hclosed, Htry.
  apply try_block_state in Htry as ->.
  assert (handled e = true) as ->
    by (destruct He as [->|[->|[->|[->| ->]]]]; reflexivity).
  unfold record_failure, sol_after; rewrite Hsol; simpl.
  destruct (CB_FAIL_LIMIT cfg <=? breaker_failures st + 1);
    destruct st; simpl in *; by subst.
Qed.

(** An error outside the [except] clause leaves [refresh_cache] with the
    cache and the breaker as they were. *)
Lemma refresh_cache_escape_keeps_state st (w : W) e st' w' cs :
  refresh_cache tr cfg py_round st w = (Escaped e, st', w', cs) ->
  handled e = false /\ st' = set_sol st (sol_after st).
Proof.
  unfold refresh_cache.
  destruct (loop_time tr w) as [now_loop w0]; simpl.
  destruct (PrimFloat.ltb now_loop (breaker_open_until st)); [by intros [=]|].
  destruct (try_block tr cfg py_round st w0) as [[[r st1] w1] cs1] eqn:Htry.
  apply try_block_state in Htry as ->.
  destruct r as [e'|nc].
  - destruct (handled e') eqn:Hh; [by intros [=]|]. by intros [= <- <- _ _].
  - destruct (loop_time tr w1). by intros [=].
Qed.

(** What a committed cycle stores. *)
Lemma refresh_cache_committed st (w : W) st' w' cs :
  refresh_cache tr cfg py_round st w = (Committed, st', w', cs) ->
  exists all_words,
    words_read tr st w = inr all_words
    /\ build_cache cfg py_round all_words (regs st) [] = inr (cache st')
    /\ regs st' = regs st.
Proof.
  unfold refresh_cache, words_read.
  destruct (loop_time tr w) as [now_loop w0]; simpl.
  destruct (PrimFloat.ltb now_loop (breaker_open_until st)); [by intros [=]|].
  destruct (try_block tr cfg py_round st w0) as [[[r st1] w1] cs1] eqn:Htry.
  destruct r as [e'|nc].
  { destruct (handled e'); by intros [=]. }
  destruct (loop_time tr w1) as [ts w2]. intros [= <- _ _].
  pose proof (try_block_state _ _ _ _ _ _ _ _ _ Htry) as ->.
  apply try_block_result in Htry as (aw & Haw & Hb).
  exists aw. done.
Qed.

(** The snapshot a cycle commits is a dictionary of dictionaries. *)
Lemma refresh_cache_committed_wf st (w : W) st' w' cs :
  refresh_cache tr cfg py_round st w = (Committed, st', w', cs) ->
  cache_wf (cache st').
Proof.
  intros H. apply refresh_cache_committed in H as (aw & _ & Hb & _).
  eapply build_cache_wf; [|exact Hb]. split; constructor.
Qed.

Lemma filter_nil_Forall {A} (f : A -> bool) (l : list A) :
  List.filter f l = [] -> Forall (fun x => f x = false) l.
Proof.
  induction l as [|x l IH]; simpl; [constructor|].
  destruct (f x) eqn:E; [done|]. constructor; auto.
Qed.

(** The last element of a filtered list, in the list. *)
Lemma last_filter_split {A} (f : A -> bool) (l : list A) (s : A) :
  last (List.filter f l) = Some s ->
  exists pre post, l = pre ++ s :: post /\ f s = true
                   /\ Forall (fun x => f x = false) post.
Proof.
  induction l as [|x l IH]; simpl; [done|].
  destruct (f x) eqn:E.
  - rewrite last_cons. destruct (last (List.filter f l)) as [y|] eqn:El.
    + intros [= ->]. destruct (IH eq_refl) as (pre & post & -> & Hs & Hpost).
      by exists (x :: pre), post.
    + intros [= ->]. exists [], l. split; [done|]. split; [done|].
      apply filter_nil_Forall. by apply last_None.
  - intros H. destruct (IH H) as (pre & post & -> & Hs & Hpost).
    by exists (x :: pre), post.
Qed.

(** [spec_writes] is the test of measurement and output key. *)
Lemma spec_writes_spec meas key s :
  spec_writes meas key s = true <-> measurement s = meas /\ out_key s = key.
Proof.
  unfold spec_writes, out_key.
  rewrite andb_true_iff, !String.eqb_eq. done.
Qed.

(** C9, as the code has it. Let two specs of the register list have the
    same measurement and the same output key, which is [field_name], or
    [id] when [field_name] is empty.  The snapshot of a cycle that
    commits holds, under that measurement and key, the value decoded
    from the words of the cycle for the last spec of the list that has
    that measurement and key: a spec from the later of the two on, and
    the later of the two itself when no spec after it has them. *)
Theorem refresh_cache_last_write_wins st (w : W) st' w' cs l1 s1 l2 s2 l3 :
  refresh_cache tr cfg py_round st w = (Committed, st', w', cs) ->
  regs st = l1 ++ s1 :: l2 ++ s2 :: l3 ->
  measurement s1 = measurement s2 ->
  (if String.eqb (field_name s1) "" then id s1 else field_name s1)
  = (if String.eqb (field_name s2) "" then id s2 else field_name s2) ->
  let meas := measurement s2 in
  let key := if String.eqb (field_name s2) "" then id s2 else field_name s2 in
  exists all_words s v,
    words_read tr st w = inr all_words
    /\ last_writer meas key (regs st) = Some s
    /\ last_writer meas key (s2 :: l3) = Some s
    /\ (last_writer meas key l3 = None -> s = s2)
    /\ decode_spec cfg py_round all_words s = inr v
    /\ cache_lookup (cache st') meas key = Some v.
Proof.
  intros H Hregs Hm Hk meas key.
  apply refresh_cache_committed in H as (aw & Haw & Hb & _).
  assert (Hs2 : spec_writes meas key s2 = true).
  { unfold spec_writes, meas, key. by rewrite !String.eqb_refl. }
  assert (Hex : exists s, last_writer meas key (s2 :: l3) = Some s).
  { unfold last_writer. cbn [List.filter]. rewrite Hs2, last_cons.
    destruct (last _); by eexists. }
  destruct Hex as [s Hlast].
  assert (Hall : last_writer meas key (regs st) = Some s).
  { rewrite Hregs. unfold last_writer in *.
    replace (l1 ++ s1 :: l2 ++ s2 :: l3) with ((l1 ++ s1 :: l2) ++ s2 :: l3)
      by (by rewrite <- app_assoc).
    rewrite List.filter_app. cbn [List.filter] in *. rewrite Hs2 in *.
    rewrite last_app. by rewrite Hlast. }
  destruct (last_filter_split _ _ _ Hall) as (pre & post & Hsplit & Hs & Hpost).
  rewrite Hsplit in Hb.
  apply spec_writes_spec in Hs as [Hsm Hsk].
  apply build_cache_last_write in Hb as (v & Hv & Hlook).
  - exists aw, s, v. rewrite Hsm, Hsk in Hlook.
    repeat split; try done.
    intros Hnone. unfold last_writer in Hlast, Hnone.
    cbn [List.filter] in Hlast. rewrite Hs2, last_cons, Hnone in Hlast.
    by injection Hlast.
  - eapply Forall_impl; [exact Hpost|]. intros x Hx [Hxm Hxk].
    assert (spec_writes meas key x = true) by (apply spec_writes_spec; split; congruence).
    congruence.
Qed.
End refresh_cache_results.

(** ** Query handler *)

Section handle_get_results.

Lemma od_get_update {V} (k : string) (other : odict V) : forall d,
  od_wf other ->
  od_get k (od_update d other)
  = match od_get k other with Some v => Some v | None => od_get k d end.
Proof.
  unfold od_update.
  induction other as [|[k1 v1] other IH]; intros d Hwf; simpl; [done|].
  apply NoDup_cons in Hwf as [Hk1 Hwf].
  rewrite IH by done.
  destruct (String.eqb_spec k k1) as [->|Hne].
  - rewrite od_get_set_eq.
    destruct (od_get k1 other) eqn:E; [|done].
    exfalso. apply Hk1. clear -E.
    induction other as [|[k2 v2] other IH]; simpl in *; [done|].
    destruct (String.eqb_spec k1 k2) as [->|]; [apply list_elem_of_here|].
    apply list_elem_of_further. by apply IH.
  - rewrite od_get_set_ne by done. done.
Qed.

Lemma od_get_map {V U} (f : V -> U) (k : string) (d : odict V) :
  od_get k (map (fun kv => (kv.1, f kv.2)) d) = f <$> od_get k d.
Proof.
  induction d as [|[k1 v1] d IH]; simpl; [done|].
  by destruct (String.eqb k k1).
Qed.

Lemma lookup_map {A B} (f : A -> B) (l : list A) (i : nat) :
  map f l !! i = f <$> l !! i.
Proof. revert i. induction l as [|x l IH]; intros [|i]; simpl; auto. Qed.

(** The entry ["name"] of the object built for a measurement. *)
Lemma measurement_object_name meas fields :
  od_wf fields ->
  od_get "name" (measurement_object meas fields)
  = Some (match od_get "name" fields with Some v => JNum v | None => JStr meas end).
Proof.
  intros Hwf. unfold measurement_object.
  rewrite od_get_update.
  - rewrite od_get_map. by destruct (od_get "name" fields).
  - unfold od_wf in *. rewrite map_map. simpl. done.
Qed.

(** C10. The object of a measurement in the response is
    [{"name": meas}] updated with the fields.  Hence, when the snapshot
    has a measurement with a field named ["name"], the object returned
    for it carries the value of that field under ["name"], in place of
    the measurement name. *)
Theorem handle_get_name_field_replaces st (i : nat) meas fields v :
  cache st !! i = Some (meas, fields) ->
  od_wf fields ->
  od_get "name" fields = Some v ->
  exists obj,
    handle_get st !! i = Some obj
    /\ obj = od_update [("name", JStr meas)] (map (fun kv => (kv.1, JNum kv.2)) fields)
    /\ od_get "name" obj = Some (JNum v).
Proof.
  intros Hi Hwf Hname.
  exists (measurement_object meas fields). split; [|split; [done|]].
  - unfold handle_get. by rewrite lookup_map, Hi.
  - by rewrite measurement_object_name, Hname.
Qed.

(** Without such a field the object carries the measurement name. *)
Lemma handle_get_name_default st (i : nat) meas fields :
  cache st !! i = Some (meas, fields) ->
  od_wf fields ->
  od_get "name" fields = None ->
  exists obj,
    handle_get st !! i = Some obj /\ od_get "name" obj = Some (JStr meas).
Proof.
  intros Hi Hwf Hname.
  exists (measurement_object meas fields). split.
  - unfold handle_get. by rewrite lookup_map, Hi.
  - by rewrite measurement_object_name, Hname.
Qed.
End handle_get_results.

(** * Examples *)

(** C4 as stated fails: two specs of one function, 100 words each at 0
    and at 50, are refused merging by the ceiling and give the plans
    (0, 100) and (50, 100), which both read address 50. *)
Lemma merge_ranges_plans_overlap :
  [block 0 100; block 50 100] <> []
  /\ one_function [block 0 100; block 50 100]
  /\ ~ plans_disjoint (merge_ranges [block 0 100; block 50 100]).
Proof.
  split; [done|]. split.
  - intros s t Hs Ht.
    repeat (apply elem_of_cons in Hs as [->|Hs]);
    repeat (apply elem_of_cons in Ht as [->|Ht]);
    try done; by apply elem_of_nil in Hs || by apply elem_of_nil in Ht.
  - intros Hd.
    apply (Hd 0%nat 1%nat (0, 100, [block 0 100]) (50, 100, [block 50 100])
              ltac:(lia) eq_refl eq_refl 50).
    unfold plan_reads, plan_end, plan_start, plan_qty; simpl. lia.
Qed.

Lemma merge_ranges_cover_and_disjoint_witness :
  plans_cover [block 0 2; block 3 1; block 300 4]
              (merge_ranges [block 0 2; block 3 1; block 300 4])
  /\ plans_disjoint (merge_ranges [block 0 2; block 3 1; block 300 4]).
Proof.
  destruct (merge_ranges_cover_and_disjoint [block 0 2; block 3 1; block 300 4])
    as [Hcover Hdisjoint].
  split; [exact Hcover|]. apply Hdisjoint.
  - repeat constructor; simpl; lia.
  - intros i j s t Hij Hi Hj a [Hs Ht].
    destruct i as [|[|[|i]]]; destruct j as [|[|[|j]]]; simpl in Hi, Hj;
      try discriminate; try lia;
      injection Hi as <-; injection Hj as <-;
      unfold spec_occupies, spec_end in *; simpl in *; lia.
Defined.

Lemma merge_ranges_oversized_spec_witness :
  exists p, p ∈ merge_ranges [block 0 130; block 10 1]
    /\ block 0 130 ∈ plan_group p
    /\ plan_start p = address (block 0 130)
    /\ count (block 0 130) <= plan_qty p
    /\ (forall a, spec_occupies (block 0 130) a -> plan_reads p a)
    /\ Forall (spans p) (plan_group p).
Proof.
  apply (merge_ranges_oversized_spec [block 0 130; block 10 1] (block 0 130)).
  - apply list_elem_of_here.
  - reflexivity.
Defined.

(** The ceiling is checked when a further spec would join a group: the
    oversized block stays whole and takes the small one in. *)
Example merge_ranges_oversized_plan :
  merge_ranges [block 0 130; block 10 1] = [(0, 130, [block 0 130; block 10 1])].
Proof. reflexivity. Qed.

Lemma refresh_cache_open_breaker_skips_witness :
  refresh_cache answering example_cfg round_whole
                (example_state twice 3 10%float) tt
  = (Skipped, example_state twice 3 10%float, tt, []).
Proof.
  apply (refresh_cache_open_breaker_skips answering example_cfg round_whole
           (example_state twice 3 10%float) tt).
  reflexivity.
Defined.

(** The third failure in a row opens the breaker until 5.0 + 30.0. *)
Example refresh_cache_third_failure_opens :
  refresh_cache unreachable example_cfg round_whole
                (example_state twice 2 0%float) tt
  = (Failed NoSocketAvailableError,
     mkAppState twice [] 0%float (Some Client) 3 35%float, tt, [Connect]).
Proof. reflexivity. Qed.

Lemma refresh_cache_failure_keeps_cache_witness :
  refresh_cache unreachable example_cfg round_whole
    (mkAppState twice [("deye", [("power", 9%float)])] 5%float
                (Some Client) 2 0%float) tt
  = (Failed NoSocketAvailableError,
     mkAppState twice [("deye", [("power", 9%float)])] 5%float
                (Some Client) (2 + 1)
                (if CB_FAIL_LIMIT example_cfg <=? 2 + 1
                 then PrimFloat.add (loop_time unreachable tt).1
                                    (CB_OPEN_SECONDS example_cfg)
                 else 0%float),
     tt, [ReadInput 20 2]).
Proof.
  apply (refresh_cache_failure_keeps_cache unreachable example_cfg round_whole
           (mkAppState twice [("deye", [("power", 9%float)])] 5%float
                       (Some Client) 2 0%float)
           tt Client NoSocketAvailableError
           (mkAppState twice [("deye", [("power", 9%float)])] 5%float
                       (Some Client) 2 0%float)
           tt [ReadInput 20 2]).
  - reflexivity.
  - reflexivity.
  - reflexivity.
  - right. by left.
Defined.

(** A good cycle: one read of the two input registers, then the commit,
    which resets the failure count; the second spec's 9 has overwritten
    the first spec's 7. *)
Example refresh_cache_commits :
  refresh_cache answering example_cfg round_whole
                (example_state twice 2 0%float) tt
  = (Committed,
     mkAppState twice [("deye", [("power", 9%float)])] 5%float (Some Client) 0 0%float,
     tt, [Connect; ReadInput 20 2]).
Proof. vm_compute. reflexivity. Qed.

Lemma refresh_cache_last_write_wins_witness :
  let s2 := example_spec "b" 21 1 "input" "uint16" "AB" "power" in
  exists all_words s v,
    words_read answering (example_state twice 2 0%float) tt = inr all_words
    /\ last_writer "deye" "power" twice = Some s
    /\ last_writer "deye" "power" [s2] = Some s
    /\ (last_writer "deye" "power" [] = None -> s = s2)
    /\ decode_spec example_cfg round_whole all_words s = inr v
    /\ cache_lookup [("deye", [("power", 9%float)])] "deye" "power" = Some v.
Proof.
  apply (refresh_cache_last_write_wins answering example_cfg round_whole
           (example_state twice 2 0%float) tt
           (mkAppState twice [("deye", [("power", 9%float)])] 5%float
                       (Some Client) 0 0%float)
           tt [Connect; ReadInput 20 2]
           [] (example_spec "a" 20 1 "input" "uint16" "AB" "power")
           [] (example_spec "b" 21 1 "input" "uint16" "AB" "power") []).
  - vm_compute. reflexivity.
  - reflexivity.
  - reflexivity.
  - reflexivity.
Defined.

(** C9 as stated fails: of two specs with the same measurement and field
    name it is not always the later one whose value the snapshot holds.
    With three specs writing the power of deye, registers 20, 21 and 22
    holding their own addresses, the snapshot holds the 22 of the third,
    not the 21 decoded for the later of the first two. *)
Lemma refresh_cache_third_write_wins :
  refresh_cache address_echo example_cfg round_whole
                (example_state thrice 0 0%float) tt
  = (Committed,
     mkAppState thrice [("deye", [("power", 22%float)])] 5%float
                (Some Client) 0 0%float,
     tt, [Connect; ReadInput 20 3])
  /\ words_read address_echo (example_state thrice 0 0%float) tt
     = inr (<["input" := store_words 20 [20; 21; 22] ∅]> ∅)
  /\ decode_spec example_cfg round_whole
       (<["input" := store_words 20 [20; 21; 22] ∅]> ∅)
       (example_spec "b" 21 1 "input" "uint16" "AB" "power") = inr 21%float
  /\ PrimFloat.eqb 22%float 21%float = false.
Proof. repeat split; vm_compute; reflexivity. Qed.

(** Nor do two specs with the same field name always overwrite each
    other: with an empty field name the key is the id, and two specs of
    different ids keep a value each. *)
Example refresh_cache_unnamed_specs_keep_both :
  refresh_cache address_echo example_cfg round_whole
                (example_state unnamed 0 0%float) tt
  = (Committed,
     mkAppState unnamed [("deye", [("a", 20%float); ("b", 21%float)])] 5%float
                (Some Client) 0 0%float,
     tt, [Connect; ReadInput 20 2]).
Proof. vm_compute. reflexivity. Qed.

(** C2 as stated fails: not every cycle that fails is counted.  A value
    of 65 words all 0xFFFF is too large for [float]; the [OverflowError]
    is none of the errors of the [except] clause and leaves
    [refresh_cache]: nothing is committed, and the failure count stays
    at 2 although the limit is 3. *)
Lemma refresh_cache_uncounted_failure :
  refresh_cache answering example_cfg round_whole
                (example_state [block 0 65] 2 0%float) tt
  = (Escaped OverflowError,
     mkAppState [block 0 65] [] 0%float (Some Client) 2 0%float,
     tt, [Connect; ReadHolding 0 65])
  /\ breaker_failures (mkAppState [block 0 65] [] 0%float (Some Client) 2 0%float)
     <> breaker_failures (example_state [block 0 65] 2 0%float) + 1.
Proof. split; [vm_compute; reflexivity|]. simpl. lia. Qed.

(** A cycle entered without a client handle, which the worker never
    does since it stores one before its loop, stores the handle it
    creates, and the handle stays when the connection attempt fails. *)
Lemma refresh_cache_failure_stores_handle :
  refresh_cache unreachable example_cfg round_whole
                (example_state twice 0 0%float) tt
  = (Failed NoSocketAvailableError,
     mkAppState twice [] 0%float (Some Client) 1 0%float, tt, [Connect])
  /\ sol (mkAppState twice [] 0%float (Some Client) 1 0%float)
     <> sol (example_state twice 0 0%float).
Proof. split; [reflexivity|]. simpl. discriminate. Qed.

Lemma handle_get_name_field_replaces_witness :
  exists obj,
    handle_get (mkAppState [] [("deye", [("power", 9%float); ("name", 2%float)])]
                           5%float None 0 0%float) !! 0%nat = Some obj
    /\ obj = od_update [("name", JStr "deye")]
                       (map (fun kv => (kv.1, JNum kv.2))
                            [("power", 9%float); ("name", 2%float)])
    /\ od_get "name" obj = Some (JNum 2%float).
Proof.
  apply (handle_get_name_field_replaces
           (mkAppState [] [("deye", [("power", 9%float); ("name", 2%float)])]
                       5%float None 0 0%float)
           0%nat "deye" [("power", 9%float); ("name", 2%float)] 2%float).
  - reflexivity.
  - unfold od_wf; simpl. apply NoDup_cons. split; [|apply NoDup_singleton].
    intros H. apply list_elem_of_singleton in H. discriminate.
  - reflexivity.
Defined.

(** The response for that snapshot: ["name"] keeps its place and holds
    the field. *)
Example handle_get_name_field :
  handle_get (mkAppState [] [("deye", [("power", 9%float); ("name", 2%float)])]
                         5%float None 0 0%float)
  = [[("name", JNum 2%float); ("power", JNum 9%float)]].
Proof. reflexivity. Qed.

(** The end-to-end decoding of the design document: the word 1234 of a
    uint16 register, and the words 0x0001, 0xFFFF of a CDAB int32. *)
Example combine_words_end_to_end :
  combine_words [1234] "uint16" "AB" = 1234
  /\ combine_words [0x0001; 0xFFFF] "int32" "CDAB" = -65535.
Proof. split; reflexivity. Qed.

(** * Further properties of the code *)

(** ** Decoder: ranges, round trips, what is ignored *)

Section combine_words_more.

Lemma land_low_word_mod (w : Z) : Z.land w 0xFFFF = w mod 65536.
Proof. change 0xFFFF with (Z.ones 16). by rewrite Z.land_ones by lia. Qed.

Lemma low_word_range (w : Z) : 0 <= Z.land w 0xFFFF < 65536.
Proof. rewrite land_low_word_mod. apply Z.mod_pos_bound. lia. Qed.

(** The truth test of a sign bit, as a comparison. *)
Lemma sign_bit_test (v n : Z) :
  0 <= n -> 0 <= v < 2 ^ (n + 1) ->
  negb (Z.land v (2 ^ n) =? 0) = (2 ^ n <=? v).
Proof.
  intros Hn Hv. rewrite land_pow2_testbit by done.
  rewrite Z.pow_add_r in Hv by lia. change (2 ^ 1) with 2 in Hv.
  assert (Hp : 0 < 2 ^ n) by (apply Z.pow_pos_nonneg; lia).
  destruct (Z.leb_spec (2 ^ n) v) as [Hle|Hlt].
  - apply Z.testbit_true; [done|].
    assert (v / 2 ^ n = 1) as ->; [|done].
    symmetry. apply (Z.div_unique v (2 ^ n) 1 (v - 2 ^ n)); lia.
  - apply Z.testbit_false; [done|].
    by rewrite Z.div_small by lia.
Qed.

(** [(hi << 16) | lo] is [hi * 65536 + lo] for a 16-bit [lo]. *)
Lemma lor_shiftl_word (hi lo : Z) :
  0 <= lo < 65536 -> Z.lor (Z.shiftl hi 16) lo = hi * 65536 + lo.
Proof.
  intros Hlo. rewrite Z.shiftl_mul_pow2 by lia. change (2 ^ 16) with 65536.
  rewrite <- Z.lxor_lor, <- Z.add_nocarry_lxor; try done.
  all: apply Z.bits_inj'; intros n Hn; rewrite Z.land_spec, Z.bits_0.
  all: destruct (Z.ltb_spec n 16).
  all: try (change 65536 with (2 ^ 16); rewrite Z.mul_pow2_bits_low by lia; done).
  all: rewrite (Z.bits_above_log2 lo n); [apply andb_false_r|lia|].
  all: destruct (Z.eq_dec lo 0) as [->|]; [simpl; lia|].
  all: apply Z.log2_lt_pow2; [lia|].
  all: apply Z.lt_le_trans with (2 ^ 16); [simpl; lia|].
  all: apply Z.pow_le_mono_r; lia.
Qed.

(** The one-word case, in arithmetic. *)
Lemma combine_words_one (w : Z) (dtype byte_order : string) :
  combine_words [w] dtype byte_order =
    (let val := w mod 65536 in
     if String.eqb dtype "int16" && (32768 <=? val) then val - 65536 else val).
Proof.
  unfold combine_words. rewrite !land_low_word_mod. cbv zeta.
  pose proof (Z.mod_pos_bound w 65536 ltac:(lia)).
  change 0x8000 with (2 ^ 15). rewrite sign_bit_test by (simpl; lia).
  change (2 ^ 15) with 32768.
  destruct (String.eqb dtype "int16"), (32768 <=? w mod 65536); reflexivity.
Qed.

(** The two-word case under a byte order other than CDAB, in arithmetic. *)
Lemma combine_words_two (w0 w1 : Z) (dtype byte_order : string) :
  String.eqb byte_order "CDAB" = false ->
  combine_words [w0; w1] dtype byte_order =
    (let val := (w0 mod 65536) * 65536 + w1 mod 65536 in
     if String.eqb dtype "int32" && (2147483648 <=? val)
     then val - 4294967296 else val).
Proof.
  intros Hbo. unfold combine_words. rewrite Hbo, !land_low_word_mod.
  cbv beta iota zeta.
  pose proof (Z.mod_pos_bound w0 65536 ltac:(lia)).
  pose proof (Z.mod_pos_bound w1 65536 ltac:(lia)).
  rewrite lor_shiftl_word by done.
  change 0x80000000 with (2 ^ 31). rewrite sign_bit_test by (simpl; lia).
  change (2 ^ 31) with 2147483648.
  destruct (String.eqb dtype "int32"),
    (2147483648 <=? w0 mod 65536 * 65536 + w1 mod 65536); reflexivity.
Qed.

(** Under CDAB the two words change places. *)
Lemma combine_words_cdab (w0 w1 : Z) (dtype : string) :
  combine_words [w0; w1] dtype "CDAB" = combine_words [w1; w0] dtype "ABCD".
Proof. reflexivity. Qed.

(** X1. A single word decodes to a 16-bit number: signed, from -32768 to
    32767, for dtype int16; unsigned, from 0 to 65535, for any other
    dtype; and this for any integer given as the word. *)
Theorem combine_words_single_range (w : Z) (dtype byte_order : string) :
  if String.eqb dtype "int16"
  then -32768 <= combine_words [w] dtype byte_order <= 32767
  else 0 <= combine_words [w] dtype byte_order <= 65535.
Proof.
  rewrite combine_words_one. cbv zeta.
  pose proof (Z.mod_pos_bound w 65536 ltac:(lia)).
  destruct (String.eqb dtype "int16"); simpl; [|lia].
  destruct (Z.leb_spec 32768 (w mod 65536)); lia.
Qed.

(** X2. Two words decode to a 32-bit number: signed for dtype int32,
    unsigned for any other dtype, under every byte order. *)
Theorem combine_words_pair_range (w0 w1 : Z) (dtype byte_order : string) :
  if String.eqb dtype "int32"
  then -2147483648 <= combine_words [w0; w1] dtype byte_order <= 2147483647
  else 0 <= combine_words [w0; w1] dtype byte_order <= 4294967295.
Proof.
  assert (Hany : forall a b,
    if String.eqb dtype "int32"
    then -2147483648 <= combine_words [a; b] dtype "ABCD" <= 2147483647
    else 0 <= combine_words [a; b] dtype "ABCD" <= 4294967295).
  { intros a b. rewrite combine_words_two by done. cbv zeta.
    pose proof (Z.mod_pos_bound a 65536 ltac:(lia)).
    pose proof (Z.mod_pos_bound b 65536 ltac:(lia)).
    destruct (String.eqb dtype "int32"); simpl; [|lia].
    destruct (Z.leb_spec 2147483648 (a mod 65536 * 65536 + b mod 65536)); lia. }
  destruct (String.eqb byte_order "CDAB") eqn:Hbo.
  - apply String.eqb_eq in Hbo as ->. rewrite combine_words_cdab. apply Hany.
  - specialize (Hany w0 w1). rewrite combine_words_two in Hany by done.
    by rewrite combine_words_two.
Qed.

(** X3. Decoding as int16 undoes the two's-complement encoding of a
    16-bit signed number: the word [v & 0xFFFF] of a [v] from -32768 to
    32767 decodes to [v]. *)
Theorem combine_words_int16_round_trip (v : Z) (byte_order : string) :
  -32768 <= v <= 32767 ->
  combine_words [Z.land v 0xFFFF] "int16" byte_order = v.
Proof.
  intros Hv. rewrite combine_words_one, land_low_word_mod. cbv zeta.
  rewrite Z.mod_mod by lia. simpl andb.
  destruct (Z.leb_spec 32768 (v mod 65536)) as [Hge|Hlt].
  - destruct (Z.lt_ge_cases v 0).
    + rewrite <- (Z.mod_unique v 65536 (-1) (v + 65536)) in * by lia. lia.
    + rewrite Z.mod_small in Hge by lia. lia.
  - destruct (Z.lt_ge_cases v 0).
    + rewrite <- (Z.mod_unique v 65536 (-1) (v + 65536)) in * by lia. lia.
    + rewrite Z.mod_small by lia. lia.
Qed.

(** X4. Decoding as int32 undoes the split of a 32-bit signed number
    into its high and low words: high word first under ABCD (or any
    order but CDAB), low word first under CDAB. *)
Theorem combine_words_int32_round_trip (v : Z) (byte_order : string) :
  -2147483648 <= v <= 2147483647 ->
  let hi := Z.land (Z.shiftr v 16) 0xFFFF in
  let lo := Z.land v 0xFFFF in
  combine_words (if String.eqb byte_order "CDAB" then [lo; hi] else [hi; lo])
                "int32" byte_order = v.
Proof.
  intros Hv hi lo.
  assert (Hgoal : combine_words [hi; lo] "int32" "ABCD" = v).
  { subst hi lo. rewrite combine_words_two by done. cbv zeta.
    rewrite !land_low_word_mod, !Z.mod_mod by lia.
    rewrite Z.shiftr_div_pow2 by lia. change (2 ^ 16) with 65536.
    assert (Hsplit : v mod 4294967296 = v / 65536 mod 65536 * 65536 + v mod 65536).
    { change 4294967296 with (65536 * 65536).
      rewrite Z.rem_mul_r by lia. lia. }
    rewrite <- Hsplit. simpl andb.
    destruct (Z.lt_ge_cases v 0).
    - rewrite <- (Z.mod_unique v 4294967296 (-1) (v + 4294967296)) by lia.
      destruct (Z.leb_spec 2147483648 (v + 4294967296)); lia.
    - rewrite Z.mod_small by lia.
      destruct (Z.leb_spec 2147483648 v); lia. }
  destruct (String.eqb byte_order "CDAB") eqn:Hbo.
  - apply String.eqb_eq in Hbo as ->. by rewrite combine_words_cdab.
  - rewrite combine_words_two by done.
    by rewrite combine_words_two in Hgoal.
Qed.
End combine_words_more.

Section combine_words_ignored.

(** X5. The byte order matters only for two words, and only as CDAB or
    not: a byte order other than CDAB (AB, DCBA, anything) decodes as
    ABCD does; CDAB is ABCD on the swapped words; and one word, or
    three and more, decode the same under every byte order. *)
Theorem combine_words_byte_order (words : list Z) (dtype byte_order : string) :
  byte_order <> "CDAB" ->
  combine_words words dtype byte_order = combine_words words dtype "ABCD"
  /\ (forall w0 w1, combine_words [w0; w1] dtype "CDAB"
                    = combine_words [w1; w0] dtype byte_order)
  /\ (length words <> 2%nat ->
      combine_words words dtype "CDAB" = combine_words words dtype byte_order).
Proof.
  intros Hbo. apply String.eqb_neq in Hbo.
  assert (Hsame : forall ws, combine_words ws dtype byte_order
                             = combine_words ws dtype "ABCD").
  { intros [|a [|b [|c ws]]]; try reflexivity. unfold combine_words. by rewrite Hbo. }
  split; [apply Hsame|]. split.
  - intros w0 w1. by rewrite Hsame.
  - intros Hlen. destruct words as [|a [|b [|c ws]]]; try reflexivity. done.
Qed.

Lemma combine_words_byte_order_witness :
  combine_words [0x0001; 0xFFFF] "int32" "DCBA"
  = combine_words [0x0001; 0xFFFF] "int32" "ABCD"
  /\ (forall w0 w1, combine_words [w0; w1] "int32" "CDAB"
                    = combine_words [w1; w0] "int32" "DCBA")
  /\ (length [0x0001; 0xFFFF] <> 2%nat ->
      combine_words [0x0001; 0xFFFF] "int32" "CDAB"
      = combine_words [0x0001; 0xFFFF] "int32" "DCBA").
Proof.
  apply (combine_words_byte_order [0x0001; 0xFFFF] "int32" "DCBA").
  discriminate.
Defined.

Lemma fold_words_cons acc w words :
  fold_words acc (w :: words) = fold_words (acc * 65536 + w mod 65536) words.
Proof.
  unfold fold_words; simpl.
  rewrite lor_shiftl_word by apply low_word_range.
  by rewrite land_low_word_mod.
Qed.

Lemma fold_words_snoc acc words w :
  fold_words acc (words ++ [w]) = fold_words acc words * 65536 + w mod 65536.
Proof.
  revert acc. induction words as [|x words IH]; intros acc.
  - cbn [app]. rewrite fold_words_cons. reflexivity.
  - cbn [app]. by rewrite !fold_words_cons, IH.
Qed.

Lemma fold_words_range words : forall acc,
  0 <= acc ->
  acc * 65536 ^ Z.of_nat (length words) <= fold_words acc words
    < (acc + 1) * 65536 ^ Z.of_nat (length words).
Proof.
  induction words as [|w words IH]; intros acc Hacc.
  - unfold fold_words; simpl. lia.
  - rewrite fold_words_cons.
    pose proof (Z.mod_pos_bound w 65536 ltac:(lia)) as Hw.
    specialize (IH (acc * 65536 + w mod 65536) ltac:(lia)).
    cbn [length]. rewrite Nat2Z.inj_succ, Z.pow_succ_r by lia.
    assert (0 < 65536 ^ Z.of_nat (length words)) by (apply Z.pow_pos_nonneg; lia).
    nia.
Qed.

Lemma combine_words_fallback words dtype byte_order :
  length words <> 1%nat -> length words <> 2%nat ->
  combine_words words dtype byte_order = fold_words 0 words.
Proof. destruct words as [|a [|b [|c ws]]]; done. Qed.

(** X6. With no word, or with three and more, dtype and byte order are
    ignored and the result is the unsigned big-endian number of the
    words, each taken [& 0xFFFF]: it lies from 0 to [65536^n - 1], never
    negative whatever the dtype; three words give
    [w0 * 65536^2 + w1 * 65536 + w2], and a further word appended to
    three or more multiplies the value by 65536 and adds that word. *)
Theorem combine_words_fallback_value (words : list Z) (dtype byte_order : string) :
  length words <> 1%nat -> length words <> 2%nat ->
  0 <= combine_words words dtype byte_order < 65536 ^ Z.of_nat (length words)
  /\ combine_words words dtype byte_order = combine_words words "uint16" "AB"
  /\ (forall w0 w1 w2,
        combine_words [w0; w1; w2] dtype byte_order
        = (w0 mod 65536) * 65536 ^ 2 + (w1 mod 65536) * 65536 + w2 mod 65536)
  /\ (forall w, (3 <= length words)%nat ->
        combine_words (words ++ [w]) dtype byte_order
        = combine_words words dtype byte_order * 65536 + w mod 65536).
Proof.
  intros H1 H2. rewrite !combine_words_fallback by done.
  split; [|split; [done|split]].
  - pose proof (fold_words_range words 0 ltac:(lia)). lia.
  - intros w0 w1 w2. rewrite combine_words_fallback by done.
    rewrite !fold_words_cons. unfold fold_words; simpl. lia.
  - intros w Hlen.
    rewrite combine_words_fallback by (rewrite length_app; simpl; lia).
    apply fold_words_snoc.
Qed.

Lemma combine_words_fallback_value_witness :
  0 <= combine_words three_words "int32" "CDAB"
    < 65536 ^ Z.of_nat (length three_words)
  /\ combine_words three_words "int32" "CDAB"
     = combine_words three_words "uint16" "AB"
  /\ (forall w0 w1 w2,
        combine_words [w0; w1; w2] "int32" "CDAB"
        = (w0 mod 65536) * 65536 ^ 2 + (w1 mod 65536) * 65536 + w2 mod 65536)
  /\ (forall w, (3 <= length three_words)%nat ->
        combine_words (three_words ++ [w]) "int32" "CDAB"
        = combine_words three_words "int32" "CDAB" * 65536
          + w mod 65536).
Proof.
  apply (combine_words_fallback_value three_words "int32" "CDAB");
    discriminate.
Defined.

(** X7. Only the low 16 bits of each word count: masking the words
    beforehand changes nothing, for any number of words. *)
Theorem combine_words_masks_words (words : list Z) (dtype byte_order : string) :
  combine_words (map (fun w => Z.land w 0xFFFF) words) dtype byte_order
  = combine_words words dtype byte_order.
Proof.
  assert (Hm : forall w, Z.land (Z.land w 0xFFFF) 0xFFFF = Z.land w 0xFFFF).
  { intros w. rewrite <- Z.land_assoc. reflexivity. }
  destruct words as [|a [|b [|c ws]]]; try reflexivity.
  - unfold combine_words, map. by rewrite Hm.
  - unfold combine_words, map. by rewrite !Hm.
  - rewrite !combine_words_fallback by (rewrite ?length_map; done).
    generalize 0. induction (a :: b :: c :: ws) as [|x l IH]; intros acc; [done|].
    cbn [map]. rewrite !fold_words_cons, land_low_word_mod, Z.mod_mod by lia.
    apply IH.
Qed.
End combine_words_ignored.

(** ** Range planner: what the plans are made of *)

Section merge_ranges_more.
Implicit Types (s t : RegSpec) (l specs group : list RegSpec) (p q : plan).

Lemma merge_walk_concat l : forall start end_ group,
  concat (map plan_group (merge_walk start end_ group l)) = group ++ l.
Proof.
  induction l as [|nxt l IH]; intros start end_ group.
  - simpl. by rewrite !app_nil_r.
  - cbn [merge_walk]; cbv zeta. destruct (_ && _).
    + rewrite IH. by rewrite <- app_assoc.
    + cbn [map concat]. rewrite IH. reflexivity.
Qed.

Lemma merge_walk_groups_nonempty l : forall start end_ group,
  group <> [] ->
  Forall (fun p => plan_group p <> []) (merge_walk start end_ group l).
Proof.
  induction l as [|nxt l IH]; intros start end_ group Hg.
  - by repeat constructor.
  - cbn [merge_walk]; cbv zeta. destruct (_ && _).
    + apply IH. by destruct group.
    + constructor; [done|]. by apply IH.
Qed.

(** X8. The groups of the plans, one after the other, are the specs in
    the order of the stable sort by address: every spec is a member of
    exactly one plan, none is lost or repeated, and no plan has an empty
    group. *)
Theorem merge_ranges_groups_partition specs :
  concat (map plan_group (merge_ranges specs)) = sorted_by_address specs
  /\ concat (map plan_group (merge_ranges specs)) ≡ₚ specs
  /\ Forall (fun p => plan_group p <> []) (merge_ranges specs).
Proof.
  assert (Hc : concat (map plan_group (merge_ranges specs)) = sorted_by_address specs).
  { unfold merge_ranges. destruct (sorted_by_address specs) as [|x l]; [done|].
    by rewrite merge_walk_concat. }
  split; [done|]. split.
  - rewrite Hc. apply sorted_by_address_perm.
  - unfold merge_ranges. destruct (sorted_by_address specs) as [|x l]; [constructor|].
    by apply merge_walk_groups_nonempty.
Qed.

Lemma merge_walk_opened l : forall start end_ group,
  (exists s g, group = s :: g /\ start = address s
     /\ end_ - start + 1 <= Z.max MAX_QTY (count s)
     /\ exists m, m ∈ group /\ spec_end m = end_) ->
  Forall plan_opened (merge_walk start end_ group l).
Proof.
  induction l as [|nxt l IH]; intros start end_ group (s & g & -> & -> & Hq & m & Hm & He).
  - constructor; [|constructor]. exists s, g.
    unfold plan_end, plan_start, plan_qty; simpl.
    repeat split; try done. exists m. split; [done|lia].
  - cbn [merge_walk]; cbv zeta. destruct (_ && _) eqn:Hc.
    + apply andb_prop in Hc as [_ Hc]. apply Z.leb_le in Hc.
      apply IH. exists s, (g ++ [nxt]). repeat split; [lia|].
      destruct (Z.max_spec end_ (address nxt + count nxt - 1)) as [[? ->]|[? ->]].
      * exists nxt. split; [|done]. apply elem_of_app. right. apply list_elem_of_here.
      * exists m. split; [|done]. apply elem_of_app. by left.
    + constructor.
      * exists s, g. unfold plan_end, plan_start, plan_qty; simpl.
        repeat split; try done. exists m. split; [done|lia].
      * apply IH. exists nxt, []. repeat split; [lia|].
        exists nxt. split; [apply list_elem_of_here|done].
Qed.

(** X9. Each plan starts at the address of the first spec of its group
    and ends where one of its members ends, so it is no wider than its
    group needs; its quantity is at most 120 unless that first spec alone
    is wider, and then at most the count of that spec. *)
Theorem merge_ranges_plan_width specs :
  Forall plan_opened (merge_ranges specs).
Proof.
  unfold merge_ranges. destruct (sorted_by_address specs) as [|x l]; [constructor|].
  apply merge_walk_opened. exists x, []. repeat split; [lia|].
  exists x. split; [apply list_elem_of_here|done].
Qed.

Lemma group_joined_snoc start end_ group nxt :
  group <> [] ->
  group_joined start group ->
  (exists (j : nat) m, group !! j = Some m /\ spec_end m = end_) ->
  address nxt <= end_ + 2 -> spec_end nxt - start + 1 <= MAX_QTY ->
  group_joined start (group ++ [nxt]).
Proof.
  intros Hne Hj (j & m & Hjm & Hm) Hgap Hceil i x Hi Hx.
  destruct (decide (i < length group)%nat) as [Hlt|Hge].
  - rewrite lookup_app_l in Hx by done.
    destruct (Hj i x Hi Hx) as (Hc & j' & g & Hj' & Hg & Ha).
    split; [done|]. exists j', g. split; [done|].
    split; [|done]. rewrite lookup_app_l; [done|lia].
  - rewrite lookup_app_r in Hx by lia.
    destruct (i - length group)%nat as [|k] eqn:Hk; simpl in Hx; [|by destruct k].
    injection Hx as <-. split; [done|].
    pose proof (lookup_lt_Some _ _ _ Hjm).
    exists j, m. split; [lia|]. split; [|lia].
    by rewrite lookup_app_l.
Qed.

Lemma merge_walk_joined l : forall start end_ group,
  group <> [] ->
  group_joined start group ->
  (exists (j : nat) m, group !! j = Some m /\ spec_end m = end_) ->
  Forall (fun p => group_joined (plan_start p) (plan_group p))
         (merge_walk start end_ group l).
Proof.
  induction l as [|nxt l IH]; intros start end_ group Hne Hj Hend.
  - constructor; [done|constructor].
  - cbn [merge_walk]; cbv zeta. destruct (_ && _) eqn:Hc.
    + apply andb_prop in Hc as [Hgap Hceil].
      apply Z.leb_le in Hgap. apply Z.leb_le in Hceil.
      apply IH.
      * by destruct group.
      * by apply (group_joined_snoc start end_).
      * destruct Hend as (j & m & Hjm & Hm).
        destruct (Z.max_spec end_ (address nxt + count nxt - 1)) as [[? ->]|[? ->]].
        -- exists (length group), nxt. split; [|done].
           rewrite lookup_app_r by lia. by rewrite Nat.sub_diag.
        -- exists j, m. split; [|done]. rewrite lookup_app_l; [done|].
           by eapply lookup_lt_Some.
    + constructor; [done|]. apply IH; [done| |by exists 0%nat, nxt].
      intros [|[|i]] x Hi Hx; [lia|done|done].
Qed.

(** X10. A spec is merged into a group only next to it: every member of
    a plan's group but the first starts at most 2 words past the end of
    a member before it, and ends within 120 words of the plan's start. *)
Theorem merge_ranges_joins_near specs :
  Forall (fun p => group_joined (plan_start p) (plan_group p)) (merge_ranges specs).
Proof.
  unfold merge_ranges. destruct (sorted_by_address specs) as [|x l]; [constructor|].
  apply merge_walk_joined; [done| |by exists 0%nat, x].
  intros [|[|i]] y Hi Hy; [lia|done|done].
Qed.

Lemma merge_walk_length l : forall start end_ group,
  (1 <= length (merge_walk start end_ group l) <= 1 + length l)%nat.
Proof.
  induction l as [|nxt l IH]; intros start end_ group; [simpl; lia|].
  cbn [merge_walk]; cbv zeta. destruct (_ && _).
  - specialize (IH start (Z.max end_ (address nxt + count nxt - 1)) (group ++ [nxt])).
    simpl. lia.
  - specialize (IH (address nxt) (address nxt + count nxt - 1) [nxt]). simpl. lia.
Qed.

Lemma merge_walk_starts_sorted l : forall start end_ group,
  StronglySorted address_le l ->
  Forall (fun x => start <= address x) l ->
  StronglySorted (fun p q => plan_start p <= plan_start q)
                 (merge_walk start end_ group l).
Proof.
  induction l as [|nxt l IH]; intros start end_ group Hs Hge.
  - repeat constructor.
  - apply StronglySorted_inv in Hs as [Hs Hnxt].
    apply Forall_cons in Hge as [Hge1 Hge].
    cbn [merge_walk]; cbv zeta. destruct (_ && _).
    + by apply IH.
    + constructor; [by apply IH|].
      eapply Forall_impl; [apply merge_walk_starts; [done|exact Hnxt]|].
      unfold plan_start; simpl. intros; lia.
Qed.

(** X11. There are no more plans than specs and, unless there is no
    spec, at least one; the plans come in the order of their start
    addresses. *)
Theorem merge_ranges_count_and_order specs :
  (length (merge_ranges specs) <= length specs)%nat
  /\ (merge_ranges specs = [] <-> specs = [])
  /\ StronglySorted (fun p q => plan_start p <= plan_start q) (merge_ranges specs).
Proof.
  pose proof (sorted_by_address_perm specs) as Hperm.
  pose proof (sorted_by_address_sorted specs) as Hs.
  unfold merge_ranges.
  destruct (sorted_by_address specs) as [|x l].
  - apply Permutation_nil_l in Hperm as <-. repeat split; try done. constructor.
  - apply Permutation_length in Hperm. simpl in Hperm.
    pose proof (merge_walk_length l (address x) (address x + count x - 1) [x]) as Hlen.
    apply StronglySorted_inv in Hs as [Hs Hx].
    split; [lia|]. split.
    + split; intros H.
      * rewrite H in Hlen. simpl in Hlen. lia.
      * subst specs. simpl in Hperm. lia.
    + by apply merge_walk_starts_sorted.
Qed.

Lemma merge_walk_head l : forall start end_ group,
  exists e g rest, merge_walk start end_ group l = (start, e, group ++ g) :: rest.
Proof.
  induction l as [|nxt l IH]; intros start end_ group.
  - exists (end_ - start + 1), [], []. simpl. by rewrite app_nil_r.
  - cbn [merge_walk]; cbv zeta. destruct (_ && _).
    + destruct (IH start (Z.max end_ (address nxt + count nxt - 1)) (group ++ [nxt]))
        as (e & g & rest & ->).
      exists e, (nxt :: g), rest. by rewrite <- app_assoc.
    + exists (end_ - start + 1), [], (merge_walk (address nxt)
                                       (address nxt + count nxt - 1) [nxt] l).
      by rewrite app_nil_r.
Qed.

Lemma merge_walk_greedy l : forall start end_ group (i : nat) p q,
  merge_walk start end_ group l !! i = Some p ->
  merge_walk start end_ group l !! S i = Some q ->
  exists s g, plan_group q = s :: g /\ plan_start q = address s
    /\ (plan_end p + 2 < address s \/ MAX_QTY < spec_end s - plan_start p + 1).
Proof.
  induction l as [|nxt l IH]; intros start end_ group i p q; [done|].
  cbn [merge_walk]; cbv zeta. destruct (_ && _) eqn:Hc; [apply IH|].
  destruct i as [|i]; [|apply IH].
  intros [= <-]. simpl.
  destruct (merge_walk_head l (address nxt) (address nxt + count nxt - 1) [nxt])
    as (e & g & rest & ->).
  intros [= <-]. exists nxt, g. split; [done|]. split; [done|].
  unfold plan_end, plan_start, plan_qty, spec_end; simpl.
  apply andb_false_iff in Hc as [Hc|Hc]; apply Z.leb_gt in Hc; lia.
Qed.

(** X12. The walk is greedy: where one plan ends and the next begins,
    the spec that opens the next plan could not join the previous one:
    it starts more than 2 words past that plan's end, or would stretch
    it beyond 120 words. *)
Theorem merge_ranges_splits_only_when_forced specs (i : nat) p q :
  merge_ranges specs !! i = Some p ->
  merge_ranges specs !! S i = Some q ->
  exists s g, plan_group q = s :: g /\ plan_start q = address s
    /\ (plan_end p + 2 < address s \/ MAX_QTY < spec_end s - plan_start p + 1).
Proof.
  unfold merge_ranges. destruct (sorted_by_address specs) as [|x l]; [done|].
  apply merge_walk_greedy.
Qed.

Lemma merge_ranges_splits_only_when_forced_witness :
  exists s g, plan_group (50, 100, [block 50 100]) = s :: g
    /\ plan_start (50, 100, [block 50 100]) = address s
    /\ (plan_end (0, 100, [block 0 100]) + 2 < address s
        \/ MAX_QTY < spec_end s - plan_start (0, 100, [block 0 100]) + 1).
Proof.
  apply (merge_ranges_splits_only_when_forced [block 0 100; block 50 100] 0%nat
           (0, 100, [block 0 100]) (50, 100, [block 50 100]));
    reflexivity.
Defined.
End merge_ranges_more.

(** ** Device reader *)

Section read_plan_more.
Context {W : Type}.
Variable tr : Transport W.

Lemma store_words_lookup words : forall start (m : gmap Z Z) a,
  store_words start words m !! a =
    if decide (start <= a < start + Z.of_nat (length words))
    then (fun w => Z.land w 0xFFFF) <$> words !! Z.to_nat (a - start)
    else m !! a.
Proof.
  induction words as [|val words IH]; intros start m a.
  - simpl. case_decide; [lia|done].
  - cbn [store_words]. rewrite IH. cbn [length]. rewrite Nat2Z.inj_succ.
    destruct (decide (a = start)) as [->|Hne].
    + rewrite decide_False by lia. rewrite decide_True by lia.
      rewrite lookup_insert_eq, Z.sub_diag. done.
    + rewrite lookup_insert_ne by done.
      destruct (decide (start + 1 <= a < start + 1 + Z.of_nat (length words))).
      * rewrite decide_True by lia.
        replace (Z.to_nat (a - start)) with (S (Z.to_nat (a - (start + 1)))) by lia.
        done.
      * rewrite decide_False by lia. done.
Qed.

(** X13. Storing the words of a read that started at [start]: the word
    at position [i] is found, masked to 16 bits, at address [start + i],
    and every address outside the block keeps what the dictionary had. *)
Theorem store_words_places_words (start : Z) (words : list Z) (m : gmap Z Z) :
  (forall (i : nat) w, words !! i = Some w ->
     store_words start words m !! (start + Z.of_nat i) = Some (Z.land w 0xFFFF))
  /\ (forall a, ~ (start <= a < start + Z.of_nat (length words)) ->
     store_words start words m !! a = m !! a).
Proof.
  split.
  - intros i w Hi. rewrite store_words_lookup.
    pose proof (lookup_lt_Some _ _ _ Hi).
    rewrite decide_True by lia.
    replace (Z.to_nat (start + Z.of_nat i - start)) with i by lia.
    by rewrite Hi.
  - intros a Ha. rewrite store_words_lookup. by rewrite decide_False.
Qed.

Lemma store_words_keeps_some start words (m : gmap Z Z) a :
  is_Some (m !! a) -> is_Some (store_words start words m !! a).
Proof.
  intros Hm. rewrite store_words_lookup. case_decide as Hin; [|done].
  destruct (words !! Z.to_nat (a - start)) eqn:E; [by eexists|].
  apply lookup_ge_None in E. lia.
Qed.

Lemma store_words_16bit start words (m : gmap Z Z) :
  map_Forall (fun _ v => 0 <= v <= 65535) m ->
  map_Forall (fun _ v => 0 <= v <= 65535) (store_words start words m).
Proof.
  intros Hm a v. rewrite store_words_lookup. case_decide; [|apply Hm].
  destruct (words !! Z.to_nat (a - start)) as [w|]; [|done].
  intros [= <-]. pose proof (low_word_range w). lia.
Qed.

Lemma read_plan_from_16bit plan_ func_ : forall (m : gmap Z Z) w m' w' cs,
  map_Forall (fun _ v => 0 <= v <= 65535) m ->
  read_plan_from tr plan_ func_ m w = (inr m', w', cs) ->
  map_Forall (fun _ v => 0 <= v <= 65535) m'.
Proof.
  induction plan_ as [|[[start qty] group] plan_ IH]; intros m w m' w' cs Hm.
  - by intros [= <- _ _].
  - cbn [read_plan_from].
    destruct (String.eqb func_ "holding").
    + destruct (read_holding_registers tr start qty w) as [[e|words] w1]; [done|].
      destruct (read_plan_from tr plan_ func_ (store_words start words m) w1)
        as [[r w2] cs2] eqn:Hrest.
      intros [= -> _ _]. eapply IH; [|exact Hrest]. by apply store_words_16bit.
    + destruct (read_input_registers tr start qty w) as [[e|words] w1]; [done|].
      destruct (read_plan_from tr plan_ func_ (store_words start words m) w1)
        as [[r w2] cs2] eqn:Hrest.
      intros [= -> _ _]. eapply IH; [|exact Hrest]. by apply store_words_16bit.
Qed.

(** X14. Every word in the dictionary [read_plan] returns is a 16-bit
    value, whatever integers the transport delivered. *)
Theorem read_plan_words_16bit plan_ func_ (w : W) (m : gmap Z Z) w' cs :
  read_plan tr plan_ func_ w = (inr m, w', cs) ->
  map_Forall (fun _ v => 0 <= v <= 65535) m.
Proof. apply read_plan_from_16bit. apply map_Forall_empty. Qed.

Lemma read_plan_from_calls plan_ func_ : forall (m : gmap Z Z) w r w' cs,
  read_plan_from tr plan_ func_ m w = (r, w', cs) ->
  match r with
  | inr _ => cs = map (plan_call func_) plan_
  | inl _ => exists k : nat, (k < length plan_)%nat
                             /\ cs = map (plan_call func_) (take (S k) plan_)
  end.
Proof.
  induction plan_ as [|[[start qty] group] plan_ IH]; intros m w r w' cs.
  - by intros [= <- _ <-].
  - cbn [read_plan_from].
    assert (Hcall : plan_call func_ (start, qty, group)
                    = if String.eqb func_ "holding"
                      then ReadHolding start qty else ReadInput start qty)
      by reflexivity.
    destruct (String.eqb func_ "holding").
    + destruct (read_holding_registers tr start qty w) as [[e|words] w1].
      { intros [= <- _ <-]. exists 0%nat. split; [simpl; lia|].
        cbn [take map]. by rewrite Hcall. }
      destruct (read_plan_from tr plan_ func_ (store_words start words m) w1)
        as [[r2 w2] cs2] eqn:Hrest.
      intros [= <- _ <-]. apply IH in Hrest.
      destruct r2 as [e|m2].
      * destruct Hrest as (k & Hk & ->). exists (S k). split; [simpl; lia|].
        cbn [take map]. by rewrite Hcall.
      * rewrite Hrest. cbn [map]. by rewrite Hcall.
    + destruct (read_input_registers tr start qty w) as [[e|words] w1].
      { intros [= <- _ <-]. exists 0%nat. split; [simpl; lia|].
        cbn [take map]. by rewrite Hcall. }
      destruct (read_plan_from tr plan_ func_ (store_words start words m) w1)
        as [[r2 w2] cs2] eqn:Hrest.
      intros [= <- _ <-]. apply IH in Hrest.
      destruct r2 as [e|m2].
      * destruct Hrest as (k & Hk & ->). exists (S k). split; [simpl; lia|].
        cbn [take map]. by rewrite Hcall.
      * rewrite Hrest. cbn [map]. by rewrite Hcall.
Qed.

(** One turn of the loop of [read_plan]. *)
Lemma read_plan_from_cons p rest func_ (m : gmap Z Z) (w : W) :
  read_plan_from tr (p :: rest) func_ m w
  = match plan_read tr func_ p w with
    | (inl e, w1) => (inl e, w1, [plan_call func_ p])
    | (inr words, w1) =>
        let '(r', w2, cs) :=
          read_plan_from tr rest func_ (store_words (plan_start p) words m) w1 in
        (r', w2, plan_call func_ p :: cs)
    end.
Proof.
  destruct p as [[start qty] group].
  unfold plan_read, plan_call. cbn [read_plan_from plan_start plan_qty fst snd].
  destruct (String.eqb func_ "holding").
  - by destruct (read_holding_registers tr start qty w) as [[e|words] w1].
  - by destruct (read_input_registers tr start qty w) as [[e|words] w1].
Qed.

(** When the loop of [read_plan] raises, the reads of the plans before
    some plan returned, and the read of that plan raised the error. *)
Lemma read_plan_from_stops plan_ func_ : forall (m : gmap Z Z) w e w' cs,
  read_plan_from tr plan_ func_ m w = (inl e, w', cs) ->
  exists (k : nat) p m_k w_k,
    plan_ !! k = Some p
    /\ read_plan_from tr (take k plan_) func_ m w
       = (inr m_k, w_k, map (plan_call func_) (take k plan_))
    /\ plan_read tr func_ p w_k = (inl e, w')
    /\ cs = map (plan_call func_) (take (S k) plan_).
Proof.
  induction plan_ as [|p plan_ IH]; intros m w e w' cs; [done|].
  rewrite read_plan_from_cons.
  destruct (plan_read tr func_ p w) as [[e1|words] w1] eqn:Hp.
  - intros [= -> -> <-]. by exists 0%nat, p, m, w.
  - destruct (read_plan_from tr plan_ func_ (store_words (plan_start p) words m) w1)
      as [[r2 w2] cs2] eqn:Hrest.
    intros [= -> -> <-].
    apply IH in Hrest as (k & p' & m_k & w_k & Hk & Hpre & Hread & ->).
    exists (S k), p', m_k, w_k. split; [done|]. split; [|done].
    cbn [take map]. by rewrite read_plan_from_cons, Hp, Hpre.
Qed.

(** When the loop of [read_plan] returns, the read of every plan
    returned, after the reads of the plans before it. *)
Lemma read_plan_from_all_return plan_ func_ : forall (m : gmap Z Z) w m' w' cs,
  read_plan_from tr plan_ func_ m w = (inr m', w', cs) ->
  forall (k : nat) p, plan_ !! k = Some p ->
  exists m_k w_k words w_k',
    read_plan_from tr (take k plan_) func_ m w
    = (inr m_k, w_k, map (plan_call func_) (take k plan_))
    /\ plan_read tr func_ p w_k = (inr words, w_k').
Proof.
  induction plan_ as [|p plan_ IH]; intros m w m' w' cs; [done|].
  rewrite read_plan_from_cons.
  destruct (plan_read tr func_ p w) as [[e1|words] w1] eqn:Hp; [done|].
  destruct (read_plan_from tr plan_ func_ (store_words (plan_start p) words m) w1)
    as [[r2 w2] cs2] eqn:Hrest.
  intros [= -> -> <-] [|k] p' Hk.
  - injection Hk as <-. by exists m, w, words, w1.
  - destruct (IH _ _ _ _ _ Hrest k p' Hk) as (m_k & w_k & ws & w_k' & Hpre & Hread).
    exists m_k, w_k, ws, w_k'. split; [|done].
    cbn [take map]. by rewrite read_plan_from_cons, Hp, Hpre.
Qed.

(** X15. [read_plan] issues one read per plan, in the order of the
    plans, each for the plan's start and quantity: holding reads for the
    bank ["holding"], input reads for any other bank name.  When it
    returns, the read of every plan returned.  When it raises [e], it
    stopped at the first read that raised: for some plan, the reads of
    the plans before it returned, its own read raised [e] in the world
    they left, and the calls made are those of the plans up to and
    including it. *)
Theorem read_plan_calls plan_ func_ (w : W) r w' cs :
  read_plan tr plan_ func_ w = (r, w', cs) ->
  match r with
  | inr _ =>
      cs = map (plan_call func_) plan_
      /\ forall (k : nat) p, plan_ !! k = Some p ->
         exists m_k w_k words w_k',
           read_plan tr (take k plan_) func_ w
           = (inr m_k, w_k, map (plan_call func_) (take k plan_))
           /\ plan_read tr func_ p w_k = (inr words, w_k')
  | inl e =>
      exists (k : nat) p m_k w_k,
        plan_ !! k = Some p
        /\ read_plan tr (take k plan_) func_ w
           = (inr m_k, w_k, map (plan_call func_) (take k plan_))
        /\ plan_read tr func_ p w_k = (inl e, w')
        /\ cs = map (plan_call func_) (take (S k) plan_)
  end.
Proof.
  unfold read_plan. intros H. destruct r as [e|m].
  - by apply read_plan_from_stops in H.
  - split.
    + by apply read_plan_from_calls in H.
    + by apply read_plan_from_all_return with (m' := m) (w' := w') (cs := cs).
Qed.

Lemma read_plan_from_covers plan_ func_ : forall (m : gmap Z Z) w m' w' cs,
  full_answers tr ->
  read_plan_from tr plan_ func_ m w = (inr m', w', cs) ->
  (forall a, is_Some (m !! a) -> is_Some (m' !! a))
  /\ (forall p a, p ∈ plan_ -> plan_reads p a -> is_Some (m' !! a)).
Proof.
  induction plan_ as [|[[start qty] group] plan_ IH]; intros m w m' w' cs Hfull.
  - intros [= <- _ _]. split; [done|]. intros p a Hp. by apply elem_of_nil in Hp.
  - cbn [read_plan_from].
    assert (Hstep : forall words w1,
      qty <= Z.of_nat (length words) ->
      (let '(r', w2, cs2) :=
         read_plan_from tr plan_ func_ (store_words start words m) w1 in
       (r', w2, ReadHolding start qty :: cs2)) = (inr m', w', cs)
      \/ (let '(r', w2, cs2) :=
         read_plan_from tr plan_ func_ (store_words start words m) w1 in
       (r', w2, ReadInput start qty :: cs2)) = (inr m', w', cs) ->
      (forall a, is_Some (m !! a) -> is_Some (m' !! a))
      /\ (forall p a, p ∈ (start, qty, group) :: plan_ -> plan_reads p a ->
                      is_Some (m' !! a))).
    { intros words w1 Hlen Hres.
      destruct (read_plan_from tr plan_ func_ (store_words start words m) w1)
        as [[r2 w2] cs2] eqn:Hrest.
      assert (r2 = inr m') as -> by (destruct Hres as [[=]|[=]]; done).
      destruct (IH _ _ _ _ _ Hfull Hrest) as [Hkeep Hcov].
      split.
      - intros a Ha. apply Hkeep. by apply store_words_keeps_some.
      - intros p a Hp Ha. apply elem_of_cons in Hp as [->|Hp]; [|by eapply Hcov].
        apply Hkeep. rewrite store_words_lookup.
        unfold plan_reads, plan_end, plan_start, plan_qty in Ha; simpl in Ha.
        rewrite decide_True by lia.
        destruct (words !! Z.to_nat (a - start)) eqn:E; [by eexists|].
        apply lookup_ge_None in E. lia. }
    destruct (String.eqb func_ "holding").
    + destruct (read_holding_registers tr start qty w) as [[e|words] w1] eqn:Hread;
        [done|].
      intros Hres. apply (Hstep words w1); [|by left].
      eapply Hfull. left. exact Hread.
    + destruct (read_input_registers tr start qty w) as [[e|words] w1] eqn:Hread;
        [done|].
      intros Hres. apply (Hstep words w1); [|by right].
      eapply Hfull. right. exact Hread.
Qed.

(** X16. When the device answers every read in full, the dictionary
    [read_plan] returns has a word for every address of every plan. *)
Theorem read_plan_covers_plans plan_ func_ (w : W) (m : gmap Z Z) w' cs :
  full_answers tr ->
  read_plan tr plan_ func_ w = (inr m, w', cs) ->
  forall p a, p ∈ plan_ -> plan_reads p a -> is_Some (m !! a).
Proof.
  intros Hfull Hread. by apply (read_plan_from_covers _ _ _ _ _ _ _ Hfull Hread).
Qed.
End read_plan_more.

(** ** Poll cycle: reads, words and snapshot *)

Section refresh_cache_more.
Context {W : Type}.
Variable tr : Transport W.
Variable cfg : Config.
Variable py_round : float -> Z -> exn + float.

Lemma read_all_other_keys plans : forall aw (w : W) aw' w' cs f,
  read_all tr plans aw w = (inr aw', w', cs) ->
  f ∉ map fst plans -> aw' !! f = aw !! f.
Proof.
  induction plans as [|[f0 p0] plans IH]; intros aw w aw' w' cs f.
  - by intros [= <- _ _].
  - cbn [read_all].
    destruct (read_plan tr p0 f0 w) as [[[e|m] w1] cs1]; [done|].
    destruct (read_all tr plans (<[f0:=m]> aw) w1) as [[r2 w2] cs2] eqn:Hrest.
    intros [= -> _ _] Hf. simpl in Hf. apply not_elem_of_cons in Hf as [Hne Hf].
    rewrite (IH _ _ _ _ _ _ Hrest Hf). by rewrite lookup_insert_ne.
Qed.

Lemma read_all_lookup plans : forall aw (w : W) aw' w' cs,
  read_all tr plans aw w = (inr aw', w', cs) ->
  NoDup (map fst plans) ->
  forall f plan_, (f, plan_) ∈ plans ->
  exists m w1 w2 cs', read_plan tr plan_ f w1 = (inr m, w2, cs') /\ aw' !! f = Some m.
Proof.
  induction plans as [|[f0 p0] plans IH]; intros aw w aw' w' cs.
  - intros _ _ f plan_ H. by apply elem_of_nil in H.
  - cbn [read_all].
    destruct (read_plan tr p0 f0 w) as [[[e|m] w1] cs1] eqn:Hread; [done|].
    destruct (read_all tr plans (<[f0:=m]> aw) w1) as [[r2 w2] cs2] eqn:Hrest.
    intros [= -> _ _] Hnd f plan_ Hin. simpl in Hnd.
    apply NoDup_cons in Hnd as [Hf0 Hnd].
    apply elem_of_cons in Hin as [[= -> ->]|Hin].
    + exists m, w, w1, cs1. split; [done|].
      rewrite (read_all_other_keys _ _ _ _ _ _ _ Hrest Hf0).
      apply lookup_insert_eq.
    + by apply (IH _ _ _ _ _ Hrest Hnd).
Qed.

Lemma read_all_calls plans : forall aw (w : W) r w' cs,
  read_all tr plans aw w = (r, w', cs) ->
  (Connect ∉ cs)
  /\ (match r with
      | inr _ => cs = concat (map (fun fp => map (plan_call fp.1) fp.2) plans)
      | inl _ => True
      end).
Proof.
  assert (Hnc : forall f (l : list plan), Connect ∉ map (plan_call f) l).
  { intros f l Hin. apply list_elem_of_In, in_map_iff in Hin as (p & Hp & _).
    unfold plan_call in Hp. by destruct (String.eqb f "holding"). }
  induction plans as [|[f0 p0] plans IH]; intros aw w r w' cs.
  - intros [= <- _ <-]. split; [apply not_elem_of_nil|done].
  - cbn [read_all].
    destruct (read_plan tr p0 f0 w) as [[r1 w1] cs1] eqn:Hread.
    pose proof (read_plan_from_calls tr _ _ _ _ _ _ _ Hread) as Hcs1.
    destruct r1 as [e|m].
    + intros [= <- _ <-]. split; [|done].
      destruct Hcs1 as (k & _ & ->). apply Hnc.
    + destruct (read_all tr plans (<[f0:=m]> aw) w1) as [[r2 w2] cs2] eqn:Hrest.
      intros [= <- _ <-]. destruct (IH _ _ _ _ _ Hrest) as [Hn2 Hcs2]. subst cs1.
      split.
      * intros Hin. apply elem_of_app in Hin as [Hin|Hin]; [by apply Hnc in Hin|done].
      * destruct r2; [done|]. cbn [map concat fst snd]. by rewrite Hcs2.
Qed.

Lemma make_plans_keys st : NoDup (map fst (make_plans st)).
Proof.
  unfold make_plans.
  destruct (List.filter _ (regs st)), (List.filter _ (regs st)); simpl;
    repeat (apply NoDup_cons; split); try apply NoDup_nil_2;
    rewrite ?list_elem_of_singleton; try apply not_elem_of_nil; done.
Qed.

Lemma make_plans_calls st :
  concat (map (fun fp => map (plan_call fp.1) fp.2) (make_plans st))
  = map (plan_call "holding") (merge_ranges (holding_specs st))
    ++ map (plan_call "input") (merge_ranges (input_specs st)).
Proof.
  unfold make_plans, holding_specs, input_specs.
  destruct (List.filter _ (regs st)), (List.filter _ (regs st)); simpl;
    by rewrite ?app_nil_r.
Qed.

Lemma make_plans_bank st s :
  s ∈ regs st -> func s = "holding" \/ func s = "input" ->
  exists specs, (func s, merge_ranges specs) ∈ make_plans st /\ s ∈ specs.
Proof.
  intros Hin Hf. unfold make_plans.
  destruct Hf as [Hf|Hf]; rewrite Hf.
  - exists (holding_specs st).
    assert (Hs : s ∈ holding_specs st).
    { apply list_elem_of_In, filter_In. split; [by apply list_elem_of_In|].
      by rewrite Hf. }
    split; [|done]. unfold holding_specs in *.
    destruct (List.filter _ (regs st)) as [|x l] eqn:E; [by apply elem_of_nil in Hs|].
    apply elem_of_app. left. apply list_elem_of_here.
  - exists (input_specs st).
    assert (Hs : s ∈ input_specs st).
    { apply list_elem_of_In, filter_In. split; [by apply list_elem_of_In|].
      by rewrite Hf. }
    split; [|done]. unfold input_specs in *.
    destruct (List.filter (fun s => String.eqb (func s) "input") (regs st))
      as [|x l] eqn:E; [by apply elem_of_nil in Hs|].
    apply elem_of_app. right. apply list_elem_of_here.
Qed.

(** The four ways a tick ends, and the state each leaves. *)
Lemma refresh_cache_cases st (w : W) out st' w' cs :
  refresh_cache tr cfg py_round st w = (out, st', w', cs) ->
  match out with
  | Skipped => st' = st /\ cs = []
  | Committed =>
      exists new_cache ts, st' = commit (set_sol st (sol_after st)) new_cache ts
  | Failed e => st' = record_failure cfg (set_sol st (sol_after st)) (loop_time tr w).1
  | Escaped e => st' = set_sol st (sol_after st)
  end.
Proof.
  unfold refresh_cache.
  destruct (loop_time tr w) as [now_loop w0]; simpl.
  destruct (PrimFloat.ltb now_loop (breaker_open_until st)).
  { by intros [= <- <- _ <-]. }
  destruct (try_block tr cfg py_round st w0) as [[[r st1] w1] cs1] eqn:Htry.
  apply try_block_state in Htry as ->.
  destruct r as [e|nc].
  - destruct (handled e); by intros [= <- <- _ _].
  - destruct (loop_time tr w1) as [ts w2]. intros [= <- <- _ _]. by exists nc, ts.
Qed.

(** The calls of the [try] block. *)
Lemma try_block_calls st (w : W) r st1 w1 cs :
  try_block tr cfg py_round st w = (r, st1, w1, cs) ->
  exists reads, cs = (match sol st with None => [Connect] | Some _ => [] end) ++ reads
    /\ (Connect ∉ reads)
    /\ (match r with
        | inr _ => cs = cycle_calls st
        | inl _ => True
        end).
Proof.
  unfold try_block, ensure_client, cycle_calls.
  destruct (sol st) as [c|].
  - destruct (read_all tr (make_plans st) ∅ w) as [[r2 w2] cs2] eqn:Hread.
    destruct (read_all_calls _ _ _ _ _ _ Hread) as [Hn Hcs].
    destruct r2 as [e|aw]; intros [= <- _ _ <-]; exists cs2.
    + done.
    + split; [done|]. split; [done|].
      destruct (build_cache _ _ _ _ _); [done|]. by rewrite Hcs, make_plans_calls.
  - destruct (connect tr w) as [[e|] w0].
    + intros [= <- _ _ <-]. exists []. split; [done|]. split; [apply not_elem_of_nil|done].
    + destruct (read_all tr (make_plans st) ∅ w0) as [[r2 w2] cs2] eqn:Hread.
      destruct (read_all_calls _ _ _ _ _ _ Hread) as [Hn Hcs].
      destruct r2 as [e|aw]; intros [= <- _ _ <-]; exists cs2.
      * done.
      * split; [done|]. split; [done|].
        destruct (build_cache _ _ _ _ _); [done|]. by rewrite Hcs, make_plans_calls.
Qed.
End refresh_cache_more.

Section refresh_cache_extras.
Context {W : Type}.
Variable tr : Transport W.
Variable cfg : Config.
Variable py_round : float -> Z -> exn + float.

(** X17. When the device answers every read in full, the words of a
    cycle serve every spec of bank holding or input: the bank's
    dictionary is there and has a word for each of the spec's [count]
    addresses, so that decoding the spec raises no [KeyError] of its own
    and comes down to combining, scaling and rounding those words. *)
Theorem words_read_serve_spec st (w : W) all_words s :
  full_answers tr ->
  words_read tr st w = inr all_words ->
  s ∈ regs st ->
  func s = "holding" \/ func s = "input" ->
  exists source words,
    all_words !! func s = Some source
    /\ mapM (fun off => source !! (address s + off)) (seqZ 0 (count s)) = Some words
    /\ length words = Z.to_nat (count s)
    /\ decode_spec cfg py_round all_words s =
         match apply_scale_offset (combine_words words (dtype s) (byte_order s))
                                  (multiply s) (offset s) with
         | inl e => inl e
         | inr val => py_round val (ROUND_DECIMALS cfg)
         end.
Proof.
  intros Hfull Hwords Hin Hf.
  unfold words_read in Hwords.
  destruct (loop_time tr w) as [now_loop w0].
  destruct (ensure_client tr st w0) as [[[c st0] w1] cs0].
  destruct (read_all tr (make_plans st) ∅ w1) as [[r w2] cs] eqn:Hread.
  simpl in Hwords. subst r.
  destruct (make_plans_bank st s Hin Hf) as (specs & Hplan & Hs).
  destruct (read_all_lookup tr _ _ _ _ _ _ Hread (make_plans_keys st) _ _ Hplan)
    as (source & wa & wb & cs' & Hrp & Hsrc).
  destruct (merge_ranges_member specs s Hs) as (p & Hp & _ & Hspan).
  destruct (read_plan_from_covers tr _ _ _ _ _ _ _ Hfull Hrp) as [_ Hcov].
  assert (Hall : is_Some (mapM (fun off => source !! (address s + off))
                               (seqZ 0 (count s)))).
  { apply mapM_is_Some_2, Forall_forall. intros off Hoff.
    apply elem_of_seqZ in Hoff. simpl. apply (Hcov p); [done|].
    unfold plan_reads, spans, spec_end in *. lia. }
  destruct Hall as [words Hw].
  exists source, words. split; [done|]. split; [done|]. split.
  - apply length_mapM in Hw. by rewrite length_seqZ in Hw.
  - unfold decode_spec.
    assert ((if String.eqb (func s) "holding" then "holding" else "input") = func s)
      as -> by (destruct Hf as [-> | ->]; reflexivity).
    by rewrite Hsrc, Hw.
Qed.

(** X18. No tick changes the register list.  A handle that is stored
    stays as it is, and the tick makes no connection attempt; a tick
    that finds no handle and is not skipped stores one and starts with
    its only connection attempt. *)
Theorem refresh_cache_handle st (w : W) out st' w' cs :
  refresh_cache tr cfg py_round st w = (out, st', w', cs) ->
  regs st' = regs st
  /\ (forall c, sol st = Some c -> sol st' = Some c /\ Connect ∉ cs)
  /\ (sol st = None -> out <> Skipped ->
      sol st' = Some Client /\ exists reads, cs = Connect :: reads /\ Connect ∉ reads).
Proof.
  unfold refresh_cache.
  destruct (loop_time tr w) as [now_loop w0]; simpl.
  destruct (PrimFloat.ltb now_loop (breaker_open_until st)).
  { intros [= <- <- _ <-]. split; [done|]. split; [|done].
    intros c Hc. split; [done|apply not_elem_of_nil]. }
  destruct (try_block tr cfg py_round st w0) as [[[r st1] w1] cs1] eqn:Htry.
  pose proof (try_block_state _ _ _ _ _ _ _ _ _ Htry) as ->.
  destruct (try_block_calls _ _ _ _ _ _ _ _ _ Htry) as (reads & Hcs & Hreads & _).
  assert (Hst : forall st2, regs st2 = regs st -> sol st2 = sol_after st ->
    regs st2 = regs st
    /\ (forall c, sol st = Some c -> sol st2 = Some c /\ Connect ∉ cs1)
    /\ (sol st = None -> sol st2 = Some Client
        /\ exists reads, cs1 = Connect :: reads /\ Connect ∉ reads)).
  { intros st2 Hr Hs. split; [done|]. rewrite Hs. unfold sol_after. split.
    - intros c Hc. rewrite Hc in Hcs |- *. by subst cs1.
    - intros Hn. rewrite Hn in Hcs |- *. split; [done|]. by exists reads. }
  destruct r as [e|nc].
  - destruct (handled e); intros [= <- <- _ <-].
    + destruct (Hst (record_failure cfg (set_sol st (sol_after st)) now_loop))
        as (? & ? & ?); [| |by auto].
      * unfold record_failure. by destruct (_ <=? _).
      * unfold record_failure. by destruct (_ <=? _).
    + destruct (Hst (set_sol st (sol_after st))) as (? & ? & ?); by auto.
  - destruct (loop_time tr w1) as [ts w2]. intros [= <- <- _ <-].
    destruct (Hst (commit (set_sol st (sol_after st)) nc ts)) as (? & ? & ?); by auto.
Qed.

Lemma build_cache_entries all_words specs : forall c0 c,
  build_cache cfg py_round all_words specs c0 = inr c ->
  (forall m k v, cache_lookup c m k = Some v ->
     cache_lookup c0 m k = Some v
     \/ exists s, s ∈ specs /\ measurement s = m /\ out_key s = k
                  /\ decode_spec cfg py_round all_words s = inr v)
  /\ (forall m k, is_Some (cache_lookup c0 m k) -> is_Some (cache_lookup c m k))
  /\ (forall s, s ∈ specs -> is_Some (cache_lookup c (measurement s) (out_key s))).
Proof.
  induction specs as [|s0 specs IH]; intros c0 c.
  - intros [= <-]. split; [by left|]. split; [done|].
    intros s Hs. by apply elem_of_nil in Hs.
  - cbn [build_cache].
    destruct (decode_spec cfg py_round all_words s0) as [e|v0] eqn:Hdec; [done|].
    intros Hb. destruct (IH _ _ Hb) as (Hfrom & Hkeep & Hall).
    assert (Hstep : forall m k, is_Some (cache_lookup c0 m k) ->
      is_Some (cache_lookup (cache_put (measurement s0) (out_key s0) v0 c0) m k)).
    { intros m k Hmk.
      destruct (decide (m = measurement s0 /\ k = out_key s0)) as [[-> ->]|Hne].
      - rewrite cache_put_lookup_eq. by eexists.
      - by rewrite cache_put_lookup_ne. }
    split; [|split].
    + intros m k v Hv. destruct (Hfrom m k v Hv) as [H1|(s & Hs & ?)].
      * destruct (decide (m = measurement s0 /\ k = out_key s0)) as [[-> ->]|Hne].
        -- rewrite cache_put_lookup_eq in H1. injection H1 as ->.
           right. exists s0. split; [apply list_elem_of_here|done].
        -- rewrite cache_put_lookup_ne in H1 by done. by left.
      * right. exists s. split; [by apply list_elem_of_further|done].
    + intros m k Hmk. by apply Hkeep, Hstep.
    + intros s Hs. apply elem_of_cons in Hs as [->|Hs]; [|by apply Hall].
      apply Hkeep. rewrite cache_put_lookup_eq. by eexists.
Qed.

(** X19. The snapshot a cycle commits is built from this cycle alone:
    it has an entry for the measurement and key of every spec, and each
    of its entries is the value decoded for a spec of that measurement
    and key from the words the cycle read.  Nothing of the snapshot
    before it remains. *)
Theorem refresh_cache_snapshot_entries st (w : W) st' w' cs :
  refresh_cache tr cfg py_round st w = (Committed, st', w', cs) ->
  exists all_words,
    words_read tr st w = inr all_words
    /\ (forall s, s ∈ regs st ->
          is_Some (cache_lookup (cache st') (measurement s) (out_key s)))
    /\ (forall m k v, cache_lookup (cache st') m k = Some v ->
          exists s, s ∈ regs st /\ measurement s = m /\ out_key s = k
                    /\ decode_spec cfg py_round all_words s = inr v).
Proof.
  intros H. apply refresh_cache_committed in H as (aw & Haw & Hb & _).
  exists aw. split; [done|].
  destruct (build_cache_entries _ _ _ _ Hb) as (Hfrom & _ & Hall).
  split; [done|].
  intros m k v Hv. destruct (Hfrom m k v Hv) as [H0|Hs]; [|done].
  unfold cache_lookup in H0. done.
Qed.

(** X20. A tick that does not commit leaves the cache and its timestamp
    as they were, so that [handle_get] answers as before the tick: the
    stale snapshot is served. *)
Theorem refresh_cache_serves_stale st (w : W) out st' w' cs :
  refresh_cache tr cfg py_round st w = (out, st', w', cs) ->
  out <> Committed ->
  cache st' = cache st /\ cache_ts st' = cache_ts st
  /\ handle_get st' = handle_get st.
Proof.
  intros H Hout. apply refresh_cache_cases in H.
  assert (cache st' = cache st /\ cache_ts st' = cache_ts st) as [Hc Ht].
  { destruct out as [| |e|e]; [by destruct H as [-> _]|done| |by subst].
    subst st'. unfold record_failure. by destruct (_ <=? _). }
  unfold handle_get. by rewrite Hc.
Qed.

(** X21. What a cycle that commits has asked of the device: one
    connection if no handle was stored, then one read per plan of the
    holding specs, then one read per plan of the input specs, and
    nothing else. *)
Theorem refresh_cache_committed_calls st (w : W) st' w' cs :
  refresh_cache tr cfg py_round st w = (Committed, st', w', cs) ->
  cs = cycle_calls st.
Proof.
  unfold refresh_cache.
  destruct (loop_time tr w) as [now_loop w0]; simpl.
  destruct (PrimFloat.ltb now_loop (breaker_open_until st)); [by intros [=]|].
  destruct (try_block tr cfg py_round st w0) as [[[r st1] w1] cs1] eqn:Htry.
  destruct (try_block_calls _ _ _ _ _ _ _ _ _ Htry) as (reads & _ & _ & Hcs).
  destruct r as [e|nc].
  - destruct (handled e); by intros [=].
  - destruct (loop_time tr w1). by intros [= _ _ <-].
Qed.
End refresh_cache_extras.

(** ** Queries *)

Section queries_more.
Context {W : Type}.
Variable tr : Transport W.
Variable cfg : Config.
Variable py_round : float -> Z -> exn + float.

(** X22. The response of [handle_get] has one object per measurement of
    the snapshot, in the snapshot's order; the object of a measurement
    holds every field under its key, and ["name"] holds the measurement
    name unless a field is called ["name"]; it has no other key. *)
Theorem handle_get_objects st (i : nat) meas fields :
  cache st !! i = Some (meas, fields) ->
  od_wf fields ->
  length (handle_get st) = length (cache st)
  /\ exists obj,
       handle_get st !! i = Some obj
       /\ forall k, od_get k obj =
            match od_get k fields with
            | Some v => Some (JNum v)
            | None => if String.eqb k "name" then Some (JStr meas) else None
            end.
Proof.
  intros Hi Hwf. split; [apply length_map|].
  exists (measurement_object meas fields). split.
  - unfold handle_get. by rewrite lookup_map, Hi.
  - intros k. unfold measurement_object. rewrite od_get_update.
    + rewrite od_get_map. by destruct (od_get k fields).
    + unfold od_wf in *. by rewrite map_map.
Qed.

(** X23. A tick that does not commit changes nothing of what
    [handle_health] reports but the failure count and the open-until
    time of the breaker: asked in the same world, the age, the cache
    timestamp, the number of specs and the rounding are the same, and
    so is the world it leaves. *)
Theorem handle_health_after_tick st (w : W) out st' w' cs (wq : W) :
  refresh_cache tr cfg py_round st w = (out, st', w', cs) ->
  out <> Committed ->
  handle_health tr cfg st' wq
  = (Health.mk (Health.cache_age_s (handle_health tr cfg st wq).1)
               (Health.cache_ts (handle_health tr cfg st wq).1)
               (breaker_failures st') (breaker_open_until st')
               (Health.regs_loaded (handle_health tr cfg st wq).1)
               (Health.round_decimals (handle_health tr cfg st wq).1),
     (handle_health tr cfg st wq).2).
Proof.
  intros H Hout. apply refresh_cache_cases in H.
  assert (cache_ts st' = cache_ts st /\ regs st' = regs st) as [Ht Hr].
  { destruct out as [| |e|e]; [by destruct H as [-> _]|done| |by subst].
    subst st'. unfold record_failure. by destruct (_ <=? _). }
  unfold handle_health. rewrite Ht, Hr.
  destruct (PrimFloat.eqb (cache_ts st) 0); [done|].
  by destruct (loop_time tr wq).
Qed.
End queries_more.

(** ** Background worker *)

Section worker_more.
Context {W : Type}.
Variable tr : Transport W.
Variable cfg : Config.
Variable py_round : float -> Z -> exn + float.
Variable sleep : W -> W.

Lemma worker_loop_handle n : forall st (w : W) st' w' log c,
  worker_loop tr cfg py_round sleep n st w = (st', w', log) ->
  sol st = Some c ->
  regs st' = regs st /\ sol st' = Some c
  /\ Forall (fun round => Connect ∉ round.2) log.
Proof.
  induction n as [|n IH]; intros st w st' w' log c.
  - intros [= <- _ <-] Hc. by repeat split.
  - cbn [worker_loop].
    destruct (refresh_cache tr cfg py_round st w) as [[[out st1] w1] cs] eqn:Htick.
    destruct (worker_loop tr cfg py_round sleep n st1 (sleep w1))
      as [[st2 w2] log2] eqn:Hloop.
    intros [= <- _ <-] Hc.
    pose proof (refresh_cache_cases _ _ _ _ _ _ _ _ _ Htick) as Hcase.
    assert (Hst1 : regs st1 = regs st /\ sol st1 = Some c).
    { unfold sol_after in Hcase. rewrite Hc in Hcase.
      destruct out as [| |e|e].
      - by destruct Hcase as [-> _].
      - by destruct Hcase as (nc & ts & ->).
      - subst st1. unfold record_failure. by destruct (_ <=? _).
      - by subst st1. }
    destruct Hst1 as [Hr1 Hs1].
    destruct (IH _ _ _ _ _ _ Hloop Hs1) as (Hr & Hs & Hlog).
    split; [congruence|]. split; [done|]. constructor; [|done]. simpl.
    unfold refresh_cache in Htick.
    destruct (loop_time tr w) as [now_loop w0]; simpl in Htick.
    destruct (PrimFloat.ltb now_loop (breaker_open_until st)).
    { injection Htick as _ _ _ <-. apply not_elem_of_nil. }
    destruct (try_block tr cfg py_round st w0) as [[[r sta] wa] csa] eqn:Htry.
    destruct (try_block_calls _ _ _ _ _ _ _ _ _ Htry) as (reads & Hcs & Hreads & _).
    rewrite Hc in Hcs. simpl in Hcs. subst csa.
    destruct r as [e|nc].
    + destruct (handled e); by injection Htick as _ _ _ <-.
    + destruct (loop_time tr wa). by injection Htick as _ _ _ <-.
Qed.

(** X24. The worker connects once, at its start: after that the handle
    is stored, and no round of the loop makes a connection attempt,
    however the rounds end; the register list stays the one loaded at
    the start. *)
Theorem background_worker_connects_once parsed n st (w : W) st' w' cs log :
  background_worker tr cfg py_round sleep parsed n st w = (st', w', cs, log) ->
  cs = [Connect]
  /\ regs st' = parsed
  /\ sol st' = Some Client
  /\ Forall (fun round => Connect ∉ round.2) log.
Proof.
  unfold background_worker, worker_start.
  destruct (connect tr w) as [c w1].
  destruct (worker_loop _ _ _ _ n _ w1) as [[st2 w2] log2] eqn:Hloop.
  intros [= <- _ <- <-].
  destruct (worker_loop_handle _ _ _ _ _ _ Client Hloop) as (Hr & Hs & Hlog); [done|].
  by repeat split.
Qed.

(** X25. Over any number of rounds none of which commits, the cache and
    its timestamp stay those of the start, and [handle_get] keeps
    answering the same. *)
Theorem worker_loop_serves_stale n st (w : W) st' w' log :
  worker_loop tr cfg py_round sleep n st w = (st', w', log) ->
  Forall (fun round => round.1 <> Committed) log ->
  cache st' = cache st /\ cache_ts st' = cache_ts st
  /\ handle_get st' = handle_get st.
Proof.
  revert st w st' w' log. induction n as [|n IH]; intros st w st' w' log.
  - by intros [= <- _ <-] _.
  - cbn [worker_loop].
    destruct (refresh_cache tr cfg py_round st w) as [[[out st1] w1] cs] eqn:Htick.
    destruct (worker_loop tr cfg py_round sleep n st1 (sleep w1))
      as [[st2 w2] log2] eqn:Hloop.
    intros [= <- _ <-] Hlog. apply Forall_cons in Hlog as [Hout Hlog]. simpl in Hout.
    destruct (IH _ _ _ _ _ Hloop Hlog) as (Hc & Ht & _).
    apply refresh_cache_cases in Htick.
    assert (cache st1 = cache st /\ cache_ts st1 = cache_ts st) as [Hc1 Ht1].
    { destruct out as [| |e|e]; [by destruct Htick as [-> _]|done| |by subst].
      subst st1. unfold record_failure. by destruct (_ <=? _). }
    assert (cache st2 = cache st) as Hcache by congruence.
    split; [done|]. split; [congruence|]. unfold handle_get. by rewrite Hcache.
Qed.

(** X26. Over any rounds of the loop the failure count follows the
    ticks: a commit resets it and a failed cycle adds 1, while a skipped
    tick and a cycle left by an uncaught error leave it.  So it counts
    the failed cycles since the last commit, added to the starting
    count if nothing was committed. *)
Theorem worker_loop_failure_count n st (w : W) st' w' log :
  worker_loop tr cfg py_round sleep n st w = (st', w', log) ->
  breaker_failures st' = failures_after (breaker_failures st) (map fst log).
Proof.
  revert st w st' w' log. induction n as [|n IH]; intros st w st' w' log.
  - by intros [= <- _ <-].
  - cbn [worker_loop].
    destruct (refresh_cache tr cfg py_round st w) as [[[out st1] w1] cs] eqn:Htick.
    destruct (worker_loop tr cfg py_round sleep n st1 (sleep w1))
      as [[st2 w2] log2] eqn:Hloop.
    intros [= <- _ <-]. rewrite (IH _ _ _ _ _ Hloop).
    unfold failures_after. cbn [map fold_left fst]. f_equal.
    apply refresh_cache_cases in Htick.
    destruct out as [| |e|e].
    + by destruct Htick as [-> _].
    + by destruct Htick as (nc & ts & ->).
    + subst st1. unfold record_failure. by destruct (_ <=? _).
    + by subst st1.
Qed.
End worker_more.

(** ** Instances of the properties above *)

Lemma combine_words_int16_round_trip_witness :
  combine_words [Z.land (-2) 0xFFFF] "int16" "AB" = -2.
Proof. apply (combine_words_int16_round_trip (-2) "AB"). lia. Defined.

Lemma combine_words_int32_round_trip_witness :
  let hi := Z.land (Z.shiftr (-65535) 16) 0xFFFF in
  let lo := Z.land (-65535) 0xFFFF in
  combine_words (if String.eqb "CDAB" "CDAB" then [lo; hi] else [hi; lo])
                "int32" "CDAB" = -65535.
Proof. apply (combine_words_int32_round_trip (-65535) "CDAB"). lia. Defined.

Lemma full_device_answers_in_full : full_answers full_device.
Proof.
  intros start qty w words w' [H|H]; injection H as <- _;
    rewrite length_replicate; lia.
Qed.

Lemma read_plan_words_16bit_witness :
  map_Forall (fun _ v => 0 <= v <= 65535)
             (store_words 10 [0x12345; 0x12345] ∅).
Proof.
  apply (read_plan_words_16bit full_device [(10, 2, [])] "holding" tt
           (store_words 10 [0x12345; 0x12345] ∅) tt [ReadHolding 10 2]).
  reflexivity.
Defined.

Lemma read_plan_calls_witness :
  exists (k : nat) p m_k w_k,
    [(10, 2, []); (20, 1, []); (30, 1, [])] !! k = Some p
    /\ read_plan times_out_from_20
         (take k [(10, 2, []); (20, 1, []); (30, 1, [])]) "holding" tt
       = (inr m_k, w_k,
          map (plan_call "holding")
              (take k [(10, 2, []); (20, 1, []); (30, 1, [])]))
    /\ plan_read times_out_from_20 "holding" p w_k = (inl TimeoutError, tt)
    /\ [ReadHolding 10 2; ReadHolding 20 1]
       = map (plan_call "holding")
             (take (S k) [(10, 2, []); (20, 1, []); (30, 1, [])]).
Proof.
  apply (read_plan_calls times_out_from_20
           [(10, 2, []); (20, 1, []); (30, 1, [])] "holding" tt
           (inl TimeoutError) tt [ReadHolding 10 2; ReadHolding 20 1]).
  reflexivity.
Defined.

Lemma read_plan_covers_plans_witness :
  is_Some (store_words 10 [0x12345; 0x12345] ∅ !! 11).
Proof.
  apply (read_plan_covers_plans full_device [(10, 2, [])] "holding" tt
           (store_words 10 [0x12345; 0x12345] ∅) tt [ReadHolding 10 2]
           full_device_answers_in_full eq_refl (10, 2, []) 11).
  - apply list_elem_of_here.
  - unfold plan_reads, plan_end, plan_start, plan_qty; simpl. lia.
Defined.

Lemma words_read_serve_spec_witness :
  let all_words : gmap string (gmap Z Z) :=
    <["input" := store_words 20 [0x12345] ∅]>
      (<["holding" := store_words 10 [0x12345; 0x12345] ∅]> ∅) in
  let s := example_spec "h" 10 2 "holding" "uint32" "ABCD" "energy" in
  exists source words,
    all_words !! func s = Some source
    /\ mapM (fun off => source !! (address s + off)) (seqZ 0 (count s)) = Some words
    /\ length words = Z.to_nat (count s)
    /\ decode_spec example_cfg round_whole all_words s =
         match apply_scale_offset (combine_words words (dtype s) (byte_order s))
                                  (multiply s) (offset s) with
         | inl e => inl e
         | inr val => round_whole val (ROUND_DECIMALS example_cfg)
         end.
Proof.
  apply (words_read_serve_spec full_device example_cfg round_whole
           (example_state mixed 0 0%float) tt).
  - apply full_device_answers_in_full.
  - vm_compute. reflexivity.
  - apply list_elem_of_here.
  - by left.
Defined.

Lemma refresh_cache_handle_witness :
  let st := example_state mixed 0 0%float in
  let r := refresh_cache full_device example_cfg round_whole st tt in
  regs r.1.1.2 = regs st
  /\ (forall c, sol st = Some c -> sol r.1.1.2 = Some c /\ Connect ∉ r.2)
  /\ (sol st = None -> r.1.1.1 <> Skipped ->
      sol r.1.1.2 = Some Client
      /\ exists reads, r.2 = Connect :: reads /\ Connect ∉ reads).
Proof.
  apply (refresh_cache_handle full_device example_cfg round_whole
           (example_state mixed 0 0%float) tt Committed _ tt
           [Connect; ReadHolding 10 2; ReadInput 20 1]).
  vm_compute. reflexivity.
Defined.

Lemma refresh_cache_snapshot_entries_witness :
  let st := example_state mixed 0 0%float in
  let r := refresh_cache full_device example_cfg round_whole st tt in
  exists all_words,
    words_read full_device st tt = inr all_words
    /\ (forall s, s ∈ regs st ->
          is_Some (cache_lookup (cache r.1.1.2) (measurement s) (out_key s)))
    /\ (forall m k v, cache_lookup (cache r.1.1.2) m k = Some v ->
          exists s, s ∈ regs st /\ measurement s = m /\ out_key s = k
                    /\ decode_spec example_cfg round_whole all_words s = inr v).
Proof.
  apply (refresh_cache_snapshot_entries full_device example_cfg round_whole
           (example_state mixed 0 0%float) tt _ tt
           [Connect; ReadHolding 10 2; ReadInput 20 1]).
  vm_compute. reflexivity.
Defined.

(** The cycle on the full device: two reads, and the words 0x2345 decoded
    as a uint32 and as an int16. *)
Example refresh_cache_mixed_commits :
  refresh_cache full_device example_cfg round_whole
                (example_state mixed 0 0%float) tt
  = (Committed,
     mkAppState mixed
       [("deye", [("energy", 591733573%float); ("temp", 9029%float)])]
       5%float (Some Client) 0 0%float,
     tt, [Connect; ReadHolding 10 2; ReadInput 20 1]).
Proof. vm_compute. reflexivity. Qed.

Lemma refresh_cache_serves_stale_witness :
  let st := mkAppState twice [("deye", [("power", 9%float)])] 5%float
                       (Some Client) 0 0%float in
  let r := refresh_cache unreachable example_cfg round_whole st tt in
  cache r.1.1.2 = cache st /\ cache_ts r.1.1.2 = cache_ts st
  /\ handle_get r.1.1.2 = handle_get st.
Proof.
  apply (refresh_cache_serves_stale unreachable example_cfg round_whole
           (mkAppState twice [("deye", [("power", 9%float)])] 5%float
                       (Some Client) 0 0%float)
           tt (Failed NoSocketAvailableError) _ tt [ReadInput 20 2]).
  - vm_compute. reflexivity.
  - discriminate.
Defined.

Lemma refresh_cache_committed_calls_witness :
  [Connect; ReadHolding 10 2; ReadInput 20 1]
  = cycle_calls (example_state mixed 0 0%float).
Proof.
  apply (refresh_cache_committed_calls full_device example_cfg round_whole
           (example_state mixed 0 0%float) tt
           (mkAppState mixed
              [("deye", [("energy", 591733573%float); ("temp", 9029%float)])]
              5%float (Some Client) 0 0%float) tt).
  vm_compute. reflexivity.
Defined.

Lemma handle_get_objects_witness :
  let st := mkAppState [] [("deye", [("power", 9%float); ("name", 2%float)])]
                       5%float None 0 0%float in
  length (handle_get st) = length (cache st)
  /\ exists obj,
       handle_get st !! 0%nat = Some obj
       /\ forall k, od_get k obj =
            match od_get k [("power", 9%float); ("name", 2%float)] with
            | Some v => Some (JNum v)
            | None => if String.eqb k "name" then Some (JStr "deye") else None
            end.
Proof.
  apply (handle_get_objects
           (mkAppState [] [("deye", [("power", 9%float); ("name", 2%float)])]
                       5%float None 0 0%float)
           0%nat "deye" [("power", 9%float); ("name", 2%float)]).
  - reflexivity.
  - unfold od_wf; simpl. apply NoDup_cons. split; [|apply NoDup_singleton].
    intros H. apply list_elem_of_singleton in H. discriminate.
Defined.

Lemma handle_health_after_tick_witness :
  let st := mkAppState twice [("deye", [("power", 9%float)])] 5%float
                       (Some Client) 2 0%float in
  let st' := mkAppState twice [("deye", [("power", 9%float)])] 5%float
                        (Some Client) 3 35%float in
  handle_health unreachable example_cfg st' tt
  = (Health.mk (Health.cache_age_s (handle_health unreachable example_cfg st tt).1)
               (Health.cache_ts (handle_health unreachable example_cfg st tt).1)
               (breaker_failures st') (breaker_open_until st')
               (Health.regs_loaded (handle_health unreachable example_cfg st tt).1)
               (Health.round_decimals (handle_health unreachable example_cfg st tt).1),
     (handle_health unreachable example_cfg st tt).2).
Proof.
  apply (handle_health_after_tick unreachable example_cfg round_whole
           (mkAppState twice [("deye", [("power", 9%float)])] 5%float
                       (Some Client) 2 0%float)
           tt (Failed NoSocketAvailableError) _ tt [ReadInput 20 2] tt).
  - vm_compute. reflexivity.
  - discriminate.
Defined.

(** What [/health] shows before any commit, and after one at time 5.0
    when asked at the same clock reading. *)
Example handle_health_examples :
  (handle_health answering example_cfg (example_state twice 0 0%float) tt).1
  = Health.mk None 0%float 0 0%float 2 2
  /\ (handle_health answering example_cfg
        (mkAppState twice [("deye", [("power", 9%float)])] 5%float
                    (Some Client) 0 0%float) tt).1
     = Health.mk (Some 0%float) 5%float 0 0%float 2 2.
Proof. split; reflexivity. Qed.

Lemma background_worker_connects_once_witness :
  let r := background_worker full_device example_cfg round_whole no_sleep
                             mixed 3 (example_state [] 0 0%float) tt in
  r.1.2 = [Connect]
  /\ regs r.1.1.1 = mixed
  /\ sol r.1.1.1 = Some Client
  /\ Forall (fun round => Connect ∉ round.2) r.2.
Proof.
  apply (background_worker_connects_once full_device example_cfg round_whole
           no_sleep mixed 3 (example_state [] 0 0%float) tt _ tt _ _).
  vm_compute. reflexivity.
Defined.

Lemma worker_loop_serves_stale_witness :
  let st := mkAppState twice [("deye", [("power", 9%float)])] 5%float
                       (Some Client) 0 0%float in
  let r := worker_loop unreachable example_cfg round_whole no_sleep 4 st tt in
  cache r.1.1 = cache st /\ cache_ts r.1.1 = cache_ts st
  /\ handle_get r.1.1 = handle_get st.
Proof.
  apply (worker_loop_serves_stale unreachable example_cfg round_whole no_sleep 4
           (mkAppState twice [("deye", [("power", 9%float)])] 5%float
                       (Some Client) 0 0%float) tt _ tt
           [(Failed NoSocketAvailableError, [ReadInput 20 2]);
            (Failed NoSocketAvailableError, [ReadInput 20 2]);
            (Failed NoSocketAvailableError, [ReadInput 20 2]);
            (Skipped, [])]).
  - vm_compute. reflexivity.
  - repeat constructor; discriminate.
Defined.

(** Four rounds against a device that cannot be reached, with a limit of
    3: three failed cycles, the third of which opens the breaker until
    35.0, and a tick skipped at clock 5.0. *)
Example worker_loop_opens_breaker :
  worker_loop unreachable example_cfg round_whole no_sleep 4
              (mkAppState twice [] 0%float (Some Client) 0 0%float) tt
  = (mkAppState twice [] 0%float (Some Client) 3 35%float, tt,
     [(Failed NoSocketAvailableError, [ReadInput 20 2]);
      (Failed NoSocketAvailableError, [ReadInput 20 2]);
      (Failed NoSocketAvailableError, [ReadInput 20 2]);
      (Skipped, [])]).
Proof. vm_compute. reflexivity. Qed.

Lemma worker_loop_failure_count_witness :
  let st := mkAppState twice [] 0%float (Some Client) 0 0%float in
  let r := worker_loop unreachable example_cfg round_whole no_sleep 4 st tt in
  breaker_failures r.1.1 = failures_after (breaker_failures st) (map fst r.2).
Proof.
  apply (worker_loop_failure_count unreachable example_cfg round_whole no_sleep 4
           (mkAppState twice [] 0%float (Some Client) 0 0%float) tt _ tt).
  vm_compute. reflexivity.
Defined.

Lemma store_words_places_words_witness :
  store_words 10 [0x12345] ∅ !! (10 + Z.of_nat 0) = Some (Z.land 0x12345 0xFFFF)
  /\ store_words 10 [0x12345] ∅ !! 9 = (∅ : gmap Z Z) !! 9.
Proof.
  destruct (store_words_places_words 10 [0x12345] ∅) as [Hin Hout].
  split; [by apply Hin|]. apply Hout. simpl. lia.
Defined.

(** ** Scaling: integers that convert without rounding *)

Section float_of_int_small.

Lemma digits2_pos_bounds (m : positive) :
  2 ^ (Z.pos (digits2_pos m) - 1) <= Z.pos m < 2 ^ Z.pos (digits2_pos m).
Proof.
  induction m as [m IH|m IH|]; cbn [digits2_pos].
  - rewrite Pos2Z.inj_succ, Z.pow_succ_r by lia.
    replace (Z.succ (Z.pos (digits2_pos m)) - 1) with (Z.succ (Z.pos (digits2_pos m) - 1)) by lia.
    rewrite Z.pow_succ_r by lia. lia.
  - rewrite Pos2Z.inj_succ, Z.pow_succ_r by lia.
    replace (Z.succ (Z.pos (digits2_pos m)) - 1) with (Z.succ (Z.pos (digits2_pos m) - 1)) by lia.
    rewrite Z.pow_succ_r by lia. lia.
  - simpl. lia.
Qed.

Lemma iter_xO_spec (m k : positive) :
  Z.pos (Pos.iter xO m k) = Z.pos m * 2 ^ Z.pos k
  /\ digits2_pos (Pos.iter xO m k) = (digits2_pos m + k)%positive.
Proof.
  induction k as [|k IH] using Pos.peano_ind.
  - simpl. split; [lia|]. lia.
  - rewrite Pos.iter_succ. destruct IH as [IH1 IH2]. cbn [digits2_pos].
    rewrite IH2, Pos2Z.inj_xO, IH1, Pos2Z.inj_succ, Z.pow_succ_r by lia.
    split; lia.
Qed.

(** binary_normalize of an integer below 2^53 in absolute value. *)
Lemma binary_round_small (s : bool) (m : positive) :
  Z.pos m < 2 ^ 53 ->
  exists mz ez,
    binary_round prec emax s m 0 = S754_finite s mz ez
    /\ Z.pos mz = Z.pos m * 2 ^ (- ez) /\ -52 <= ez <= 0
    /\ valid_binary (S754_finite s mz ez) = true.
Proof.
  intros Hm.
  pose proof (digits2_pos_bounds m) as Hd.
  assert (Hd53 : Z.pos (digits2_pos m) <= 53).
  { destruct (Z.le_gt_cases (Z.pos (digits2_pos m)) 53) as [|Hgt]; [done|].
    assert (2 ^ 53 <= 2 ^ (Z.pos (digits2_pos m) - 1)) by (apply Z.pow_le_mono_r; lia).
    lia. }
  unfold binary_round.
  assert (Hfexp : fexp prec emax (Z.pos (digits2_pos m) + 0) = Z.pos (digits2_pos m) - 53).
  { unfold fexp, emin, prec, emax. lia. }
  rewrite Hfexp. unfold shl_align.
  destruct (Z.pos (digits2_pos m) - 53 - 0) as [|p|k] eqn:Hk; [|lia|].
  - (* 53 digits already *)
    exists m, 0.
    assert (Hshr : shr_fexp prec emax (Z.pos m) 0 loc_Exact
                   = ({| shr_m := Z.pos m; shr_r := false; shr_s := false |}, 0)).
    { unfold shr_fexp. cbn [Zdigits2].
      replace (fexp prec emax (Z.pos (digits2_pos m) + 0) - 0) with 0
        by (unfold fexp, emin, prec, emax; lia).
      reflexivity. }
    unfold binary_round_aux. rewrite Hshr. cbn [shr_m loc_of_shr_record round_nearest_even].
    rewrite Hshr. cbn [shr_m]. 
    split; [reflexivity|]. split; [simpl; lia|]. split; [lia|].
    unfold valid_binary, bounded, canonical_mantissa.
    replace (fexp prec emax (Z.pos (digits2_pos m) + 0)) with 0
      by (unfold fexp, emin, prec, emax; lia).
    reflexivity.
  - destruct (iter_xO_spec m k) as [Hv Hdig].
    set (mz := Pos.iter xO m k) in *.
    set (ez := Z.pos (digits2_pos m) - 53) in *.
    assert (Hez : ez = - Z.pos k) by lia.
    assert (Hdz : Z.pos (digits2_pos mz) + ez = 53 + ez) by (rewrite Hdig; lia).
    exists mz, ez.
    assert (Hshr : shr_fexp prec emax (Z.pos mz) ez loc_Exact
                   = ({| shr_m := Z.pos mz; shr_r := false; shr_s := false |}, ez)).
    { unfold shr_fexp. cbn [Zdigits2]. rewrite Hdz.
      replace (fexp prec emax (53 + ez) - ez) with 0
        by (unfold fexp, emin, prec, emax; lia).
      reflexivity. }
    unfold binary_round_aux. rewrite Hshr. cbn [shr_m loc_of_shr_record round_nearest_even].
    rewrite Hshr. cbn [shr_m].
    assert ((ez <=? emax - prec) = true) as -> by (apply Z.leb_le; unfold emax, prec; lia).
    split; [reflexivity|]. split; [rewrite Hv, Hez; f_equal; f_equal; lia|]. split; [lia|].
    unfold valid_binary, bounded, canonical_mantissa. rewrite Hdz.
    apply andb_true_intro. split.
    + apply Z.eqb_eq. unfold fexp, emin, prec, emax; lia.
    + apply Z.leb_le. unfold emax, prec; lia.
Qed.

Lemma finite_not_infinity (x : spec_float) s m e :
  x = S754_finite s m e -> valid_binary x = true ->
  PrimFloat.is_infinity (SF2Prim x) = false.
Proof.
  intros -> Hv. unfold PrimFloat.is_infinity.
  rewrite FloatAxioms.eqb_spec, FloatAxioms.abs_spec, FloatAxioms.Prim2SF_SF2Prim by done.
  reflexivity.
Qed.
End float_of_int_small.

Section apply_scale_offset_more.

Lemma float_of_int_finite (z : Z) s m e :
  binary_normalize prec emax z 0 false = S754_finite s m e ->
  valid_binary (S754_finite s m e) = true ->
  float_of_int z = inr (SF2Prim (S754_finite s m e))
  /\ Prim2SF (SF2Prim (S754_finite s m e)) = S754_finite s m e.
Proof.
  intros Hn Hv. unfold float_of_int. rewrite Hn.
  rewrite (finite_not_infinity _ s m e eq_refl Hv).
  split; [done|]. by apply FloatAxioms.Prim2SF_SF2Prim.
Qed.

(** X27. [float(raw)] raises nothing and rounds nothing for an integer
    below 2^53 in absolute value: the float it returns has the sign of
    the integer and a mantissa and exponent whose value [m * 2^e] is the
    integer's absolute value exactly (and is +0.0 for 0). *)
Theorem float_of_int_exact (z : Z) :
  - 2 ^ 53 < z < 2 ^ 53 ->
  exists f, float_of_int z = inr f
    /\ match Prim2SF f with
       | S754_zero s => z = 0 /\ s = false
       | S754_finite s m e =>
           s = (z <? 0) /\ e <= 0 /\ Z.pos m = Z.abs z * 2 ^ (- e)
       | _ => False
       end.
Proof.
  intros Hz. destruct z as [|p|p].
  - exists 0%float. split; [reflexivity|]. vm_compute. by split.
  - destruct (binary_round_small false p ltac:(lia)) as (mz & ez & Hr & Hv & He & Hvalid).
    destruct (float_of_int_finite (Z.pos p) false mz ez Hr Hvalid) as [Hf Hp].
    eexists. split; [exact Hf|]. rewrite Hp. repeat split; [lia|done].
  - destruct (binary_round_small true p ltac:(lia)) as (mz & ez & Hr & Hv & He & Hvalid).
    destruct (float_of_int_finite (Z.neg p) true mz ez Hr Hvalid) as [Hf Hp].
    eexists. split; [exact Hf|]. rewrite Hp. repeat split; [lia|done].
Qed.

Lemma float_of_int_exact_witness :
  exists f, float_of_int (-65535) = inr f
    /\ match Prim2SF f with
       | S754_zero s => -65535 = 0 /\ s = false
       | S754_finite s m e =>
           s = (-65535 <? 0) /\ e <= 0 /\ Z.pos m = Z.abs (-65535) * 2 ^ (- e)
       | _ => False
       end.
Proof. apply (float_of_int_exact (-65535)). lia. Defined.

Lemma float_of_int_small_ok (z : Z) :
  - 2 ^ 53 < z < 2 ^ 53 -> exists f, float_of_int z = inr f.
Proof.
  intros Hz. destruct z as [|p|p].
  - by exists 0%float.
  - destruct (binary_round_small false p ltac:(lia)) as (mz & ez & Hr & _ & _ & Hvalid).
    destruct (float_of_int_finite (Z.pos p) false mz ez Hr Hvalid) as [Hf _].
    by eexists.
  - destruct (binary_round_small true p ltac:(lia)) as (mz & ez & Hr & _ & _ & Hvalid).
    destruct (float_of_int_finite (Z.neg p) true mz ez Hr Hvalid) as [Hf _].
    by eexists.
Qed.

(** The number decoded from at most three words is below 2^48 in
    absolute value. *)
Lemma combine_words_small (words : list Z) (dtype byte_order : string) :
  (length words <= 3)%nat ->
  - 2 ^ 48 < combine_words words dtype byte_order < 2 ^ 48.
Proof.
  intros Hlen. destruct words as [|a [|b [|c [|d ws]]]]; [..|simpl in Hlen; lia].
  - simpl. lia.
  - rewrite combine_words_one. cbv zeta.
    pose proof (Z.mod_pos_bound a 65536 ltac:(lia)).
    destruct (_ && _); lia.
  - assert (Hany : forall x y, - 2 ^ 48 < combine_words [x; y] dtype "ABCD" < 2 ^ 48).
    { intros x y. rewrite combine_words_two by done. cbv zeta.
      pose proof (Z.mod_pos_bound x 65536 ltac:(lia)).
      pose proof (Z.mod_pos_bound y 65536 ltac:(lia)).
      destruct (_ && _); lia. }
    destruct (String.eqb byte_order "CDAB") eqn:Hbo.
    + apply String.eqb_eq in Hbo as ->. rewrite combine_words_cdab. apply Hany.
    + specialize (Hany a b). rewrite combine_words_two in Hany by done.
      by rewrite combine_words_two.
  - rewrite combine_words_fallback by done.
    pose proof (fold_words_range [a; b; c] 0 ltac:(lia)) as H.
    cbn [length] in H. change (65536 ^ Z.of_nat 3) with (2 ^ 48) in H. lia.
Qed.

Lemma apply_scale_offset_small_ok (words : list Z) (dtype byte_order : string)
    (multiply_ offset_ : float) :
  (length words <= 3)%nat ->
  exists val,
    apply_scale_offset (combine_words words dtype byte_order) multiply_ offset_
    = inr val.
Proof.
  intros Hlen. pose proof (combine_words_small words dtype byte_order Hlen) as Hb.
  assert (2 ^ 48 < 2 ^ 53) by (apply Z.pow_lt_mono_r; lia).
  destruct (float_of_int_small_ok (combine_words words dtype byte_order)) as [f Hf];
    [lia|].
  unfold apply_scale_offset. rewrite Hf. by eexists.
Qed.

(** X28. Scaling the number decoded from at most three words raises
    nothing: [float(raw)] cannot overflow on it, so
    [apply_scale_offset] returns a float, for every dtype, byte order,
    factor and offset. *)
Theorem apply_scale_offset_decoded_ok (words : list Z) (dtype byte_order : string)
    (multiply_ offset_ : float) :
  (length words <= 3)%nat ->
  exists val,
    apply_scale_offset (combine_words words dtype byte_order) multiply_ offset_
    = inr val.
Proof.
  intros Hlen. pose proof (combine_words_small words dtype byte_order Hlen) as Hb.
  destruct (float_of_int_small_ok (combine_words words dtype byte_order)) as [f Hf].
  { assert (2 ^ 48 < 2 ^ 53) by (apply Z.pow_lt_mono_r; lia). lia. }
  unfold apply_scale_offset. rewrite Hf. by eexists.
Qed.

Lemma apply_scale_offset_decoded_ok_witness :
  exists val,
    apply_scale_offset (combine_words three_words "int32" "CDAB") 0.5%float 1%float
    = inr val.
Proof.
  apply (apply_scale_offset_decoded_ok three_words "int32" "CDAB" 0.5%float 1%float).
  simpl. lia.
Defined.
End apply_scale_offset_more.

(** ** Poll cycle: when it commits *)

Section refresh_cache_commits_when.
Context {W : Type}.
Variable tr : Transport W.
Variable cfg : Config.
Variable py_round : float -> Z -> exn + float.

Lemma device_up_full_answers : device_up tr -> full_answers tr.
Proof.
  intros (_ & Hh & Hi) start qty w words w' [H|H].
  - destruct (Hh start qty w) as (ws & Hws & Hlen). rewrite H in Hws.
    simpl in Hws. by injection Hws as ->.
  - destruct (Hi start qty w) as (ws & Hws & Hlen). rewrite H in Hws.
    simpl in Hws. by injection Hws as ->.
Qed.

Lemma read_plan_from_up plan_ func_ : forall (m : gmap Z Z) (w : W),
  device_up tr ->
  exists m' w' cs, read_plan_from tr plan_ func_ m w = (inr m', w', cs).
Proof.
  induction plan_ as [|[[start qty] group] plan_ IH]; intros m w Hup.
  - by exists m, w, [].
  - cbn [read_plan_from]. destruct Hup as (Hc & Hh & Hi).
    destruct (String.eqb func_ "holding").
    + destruct (Hh start qty w) as (words & Hws & _).
      destruct (read_holding_registers tr start qty w) as [r w1]. simpl in Hws. subst r.
      destruct (IH (store_words start words m) w1) as (m' & w' & cs & ->); [done|].
      by eexists _, _, _.
    + destruct (Hi start qty w) as (words & Hws & _).
      destruct (read_input_registers tr start qty w) as [r w1]. simpl in Hws. subst r.
      destruct (IH (store_words start words m) w1) as (m' & w' & cs & ->); [done|].
      by eexists _, _, _.
Qed.

Lemma read_all_up plans : forall aw (w : W),
  device_up tr ->
  exists aw' w' cs, read_all tr plans aw w = (inr aw', w', cs).
Proof.
  induction plans as [|[f0 p0] plans IH]; intros aw w Hup.
  - by exists aw, w, [].
  - cbn [read_all]. unfold read_plan.
    destruct (read_plan_from_up p0 f0 ∅ w Hup) as (m & w1 & cs1 & ->).
    destruct (IH (<[f0:=m]> aw) w1 Hup) as (aw' & w' & cs & ->).
    by eexists _, _, _.
Qed.

Lemma build_cache_ok all_words specs : forall c0,
  Forall (fun s => exists v, decode_spec cfg py_round all_words s = inr v) specs ->
  exists c, build_cache cfg py_round all_words specs c0 = inr c.
Proof.
  induction specs as [|s specs IH]; intros c0 Hall.
  - by exists c0.
  - apply Forall_cons in Hall as [[v Hv] Hall]. cbn [build_cache]. rewrite Hv.
    by apply IH.
Qed.

(** Decoding a narrow spec from the words of full answers. *)
Lemma decode_spec_ok st (w0 w1 w2 : W) all_words cs s :
  device_up tr ->
  (forall x n, exists y, py_round x n = inr y) ->
  read_all tr (make_plans st) ∅ w1 = (inr all_words, w2, cs) ->
  s ∈ regs st ->
  (func s = "holding" \/ func s = "input") /\ count s <= 3 ->
  exists v, decode_spec cfg py_round all_words s = inr v.
Proof.
  intros Hup Hround Hread Hin [Hf Hcount].
  destruct (make_plans_bank st s Hin Hf) as (specs & Hplan & Hs).
  destruct (read_all_lookup tr _ _ _ _ _ _ Hread (make_plans_keys st) _ _ Hplan)
    as (source & wa & wb & cs' & Hrp & Hsrc).
  destruct (merge_ranges_member specs s Hs) as (p & Hp & _ & Hspan).
  destruct (read_plan_from_covers tr _ _ _ _ _ _ _ (device_up_full_answers Hup) Hrp)
    as [_ Hcov].
  assert (Hall : is_Some (mapM (fun off => source !! (address s + off))
                               (seqZ 0 (count s)))).
  { apply mapM_is_Some_2, Forall_forall. intros off Hoff.
    apply elem_of_seqZ in Hoff. simpl. apply (Hcov p); [done|].
    unfold plan_reads, spans, spec_end in *. lia. }
  destruct Hall as [words Hw].
  assert (Hlen : (length words <= 3)%nat).
  { apply length_mapM in Hw. rewrite length_seqZ in Hw. lia. }
  unfold decode_spec.
  assert ((if String.eqb (func s) "holding" then "holding" else "input") = func s)
    as -> by (destruct Hf as [-> | ->]; reflexivity).
  rewrite Hsrc, Hw.
  destruct (apply_scale_offset_small_ok words (dtype s) (byte_order s)
              (multiply s) (offset s) Hlen) as [val ->].
  apply Hround.
Qed.

(** X29. A cycle that is attempted commits, when the device is up
    (connecting and every read succeed, and reads are answered in
    full), every spec is of bank holding or input and of at most three
    words, and the builtin [round] raises nothing. *)
Theorem refresh_cache_commits_when_up st (w : W) :
  device_up tr ->
  (forall x n, exists y, py_round x n = inr y) ->
  Forall (fun s => (func s = "holding" \/ func s = "input") /\ count s <= 3) (regs st) ->
  PrimFloat.ltb (loop_time tr w).1 (breaker_open_until st) = false ->
  exists st' w' cs, refresh_cache tr cfg py_round st w = (Committed, st', w', cs).
Proof.
  intros Hup Hround Hregs Hclosed. unfold refresh_cache.
  destruct (loop_time tr w) as [now_loop w0]; simpl in Hclosed |- *.
  rewrite Hclosed. unfold try_block.
  assert (Hens : exists st1 w1 cs1, ensure_client tr st w0 = (None, st1, w1, cs1)).
  { unfold ensure_client. destruct (sol st); [by eexists _, _, _|].
    destruct Hup as (Hc & _). specialize (Hc w0).
    destruct (connect tr w0) as [c w1]. simpl in Hc. subst c. by eexists _, _, _. }
  destruct Hens as (st1 & w1 & cs1 & ->).
  destruct (read_all_up (make_plans st) ∅ w1 Hup) as (aw & w2 & cs2 & Hread).
  rewrite Hread.
  destruct (build_cache_ok aw (regs st) []) as [c Hc].
  { apply Forall_forall. intros s Hs. rewrite Forall_forall in Hregs.
    by apply (decode_spec_ok st w0 w1 w2 aw cs2 s Hup Hround Hread Hs), Hregs. }
  rewrite Hc. destruct (loop_time tr w2) as [ts w3]. by eexists _, _, _.
Qed.
End refresh_cache_commits_when.

Lemma full_device_up : device_up full_device.
Proof.
  split; [done|].
  split; intros start qty w; eexists; (split; [reflexivity|]);
    rewrite length_replicate; lia.
Qed.

Lemma refresh_cache_commits_when_up_witness :
  exists st' w' cs,
    refresh_cache full_device example_cfg round_whole
                  (example_state mixed 0 0%float) tt
    = (Committed, st', w', cs).
Proof.
  apply (refresh_cache_commits_when_up full_device example_cfg round_whole
           (example_state mixed 0 0%float) tt).
  - apply full_device_up.
  - intros x n. by exists x.
  - repeat constructor; simpl; auto; lia.
  - reflexivity.
Defined.
